(** * testchess: the UCI client, the match orchestrator and the tournament
    scheduler of [src/backend], embedded as Rocq functions.

    Python objects become records and their methods become functions that
    take the object and return the updated one.  A call that may raise
    returns an [Outcome]; dictionaries are [gmap]s; [int] is [Z]; the [float]
    score of an engine is a rational (every value it takes is a multiple of
    one half, which binary floating point adds exactly far beyond any number
    of games that can be played). *)

From Stdlib Require Import ZArith QArith String Ascii List Lia Lqa.
From stdpp Require Import base option list strings gmap pretty.

Open Scope string_scope.
Open Scope list_scope.
Open Scope Z_scope.

(** ** Exceptions *)

(** The result of a call that may raise: the returned value, or the class
    name and message of the exception. *)
Inductive Outcome (A : Type) : Type :=
  | Returned (a : A)
  | Raised (cls msg : string).
Arguments Returned {A} a.
Arguments Raised {A} cls msg.

Definition raises {A} (o : Outcome A) : bool :=
  match o with Returned _ => false | Raised _ _ => true end.

(** ** backend/tournament.py: TournamentStats *)

Record TournamentStats := mkStats {
  engine_name : string;
  games_played : Z;
  wins : Z;
  losses : Z;
  draws : Z;
  points : Q;
  wins_as_white : Z;
  wins_as_black : Z;
  total_nodes : Z
}.

(** [TournamentStats.__init__] *)
Definition new_stats (name : string) : TournamentStats :=
  mkStats name 0 0 0 0 (0 # 1) 0 0 0.

(** [TournamentStats.add_result] *)
Definition add_result (result color : string) (nodes : Z)
    (s : TournamentStats) : TournamentStats :=
  let s := mkStats (engine_name s) (games_played s + 1) (wins s) (losses s)
             (draws s) (points s) (wins_as_white s) (wins_as_black s)
             (total_nodes s + nodes) in
  if String.eqb result "win" then
    let s := mkStats (engine_name s) (games_played s) (wins s + 1) (losses s)
               (draws s) (points s + 1)%Q (wins_as_white s) (wins_as_black s)
               (total_nodes s) in
    if String.eqb color "white" then
      mkStats (engine_name s) (games_played s) (wins s) (losses s)
        (draws s) (points s) (wins_as_white s + 1) (wins_as_black s)
        (total_nodes s)
    else
      mkStats (engine_name s) (games_played s) (wins s) (losses s)
        (draws s) (points s) (wins_as_white s) (wins_as_black s + 1)
        (total_nodes s)
  else if String.eqb result "loss" then
    mkStats (engine_name s) (games_played s) (wins s) (losses s + 1)
      (draws s) (points s) (wins_as_white s) (wins_as_black s)
      (total_nodes s)
  else if String.eqb result "draw" then
    mkStats (engine_name s) (games_played s) (wins s) (losses s)
      (draws s + 1) (points s + (1 # 2))%Q (wins_as_white s) (wins_as_black s)
      (total_nodes s)
  else s.

(** One recorded call of [add_result]: its three arguments. *)
Record ResultCall := mkCall {
  call_result : string;
  call_color : string;
  call_nodes : Z
}.

Definition apply_call (s : TournamentStats) (c : ResultCall) : TournamentStats :=
  add_result (call_result c) (call_color c) (call_nodes c) s.

(** The accumulator after a sequence of calls, oldest first. *)
Definition after_calls (s : TournamentStats) (cs : list ResultCall) : TournamentStats :=
  fold_left apply_call cs s.

(** The standing equation of an accumulator. *)
Definition points_consistent (s : TournamentStats) : Prop :=
  (points s == inject_Z (wins s) + (1 # 2) * inject_Z (draws s))%Q.

Lemma new_stats_consistent name : points_consistent (new_stats name).
Proof. unfold points_consistent; simpl. reflexivity. Qed.

Lemma add_result_consistent result color nodes s :
  points_consistent s -> points_consistent (add_result result color nodes s).
Proof.
  unfold points_consistent, add_result; intros H.
  destruct (String.eqb result "win").
  - destruct (String.eqb color "white"); simpl;
      rewrite H, inject_Z_plus; simpl; ring.
  - destruct (String.eqb result "loss"); [exact H|].
    destruct (String.eqb result "draw"); [|exact H].
    simpl. rewrite H, inject_Z_plus. simpl. ring.
Qed.

Lemma after_calls_consistent cs : forall s,
  points_consistent s -> points_consistent (after_calls s cs).
Proof.
  induction cs as [|c cs IH]; intros s H; simpl; [exact H|].
  apply IH. now apply add_result_consistent.
Qed.

(** C2: whatever sequence of [add_result] calls a freshly created
    accumulator receives, its points equal its wins plus half its draws. *)
Theorem stats_points_invariant (name : string) (cs : list ResultCall) :
  let s := after_calls (new_stats name) cs in
  (points s == inject_Z (wins s) + (1 # 2) * inject_Z (draws s))%Q.
Proof.
  exact (after_calls_consistent cs _ (new_stats_consistent name)).
Qed.

(** ** backend/match.py: MatchResult *)

Record MatchResult := mkResult {
  winner : option string;      (* "white", "black", "draw" or "error" *)
  reason : string;
  moves : list string;
  pgn : string;
  time_white : Z;
  time_black : Z;
  nodes_white : Z;
  nodes_black : Z
}.

(** ** backend/engine_manager.py: the registry *)

Record EngineConfig := mkConfig {
  cfg_name : string;
  cfg_path : string;
  cfg_enabled : bool;
  cfg_time_control : Z
}.

(** [EngineManager.get_engine] is [self.engines.get(name)]. *)
Definition get_engine (engines : gmap string EngineConfig) (name : string)
    : option EngineConfig :=
  engines !! name.

(** [itertools.combinations(l, 2)]: the pairs of positions [i < j], in
    lexicographic order. *)
Fixpoint combinations2 {A} (l : list A) : list (A * A) :=
  match l with
  | [] => []
  | x :: rest => map (pair x) rest ++ combinations2 rest
  end.

(** ** backend/tournament.py: Tournament *)

Module Tournament.

(** The arguments one [Match] is constructed with. *)
Record MatchSetup := mkSetup {
  white_engine_path : string;
  black_engine_path : string;
  setup_time_control : Z;
  setup_increment : Z;
  opening_moves : list string
}.

Record GameInfo := mkGame {
  game_number : Z;
  white : string;
  black : string;
  result : option string;
  game_reason : string;
  move_count : Z;
  game_pgn : string
}.

Record Tournament := mkTournament {
  name : string;
  time_control : Z;
  increment : Z;
  rounds : Z;
  opening_book : list (list string);
  stats : gmap string TournamentStats;
  games : list GameInfo;
  current_game : Z;
  total_games : Z
}.

(** What the scheduler has consumed from its surroundings: how many numbers
    it has taken from the random generator, and the matches it has
    constructed and played, oldest first. *)
Record World := mkWorld {
  draws_used : nat;
  launched : list MatchSetup
}.

(** [Tournament.__init__] *)
Definition new_tournament (name : string) (time_control increment rounds : Z)
    (opening_book : list (list string)) : Tournament :=
  mkTournament name time_control increment rounds opening_book ∅ [] 0 0.

Definition start_world : World := mkWorld 0 [].

Section Scheduler.

(** The registry held by the engine manager. *)
Variable engines : gmap string EngineConfig.
(** The stream of numbers behind [random.choice]: the [k]-th draw from a
    pool of [n] items returns the item at index [rng k mod n]. *)
Variable rng : nat -> nat.
(** [Match(...).play()]: the record a match returns.  It depends on the
    engines and on time, so it is given from outside, indexed by the number
    of matches played before it. *)
Variable run_match : MatchSetup -> nat -> MatchResult.

Definition set_stats (t : Tournament) (st : gmap string TournamentStats) : Tournament :=
  mkTournament (name t) (time_control t) (increment t) (rounds t)
    (opening_book t) st (games t) (current_game t) (total_games t).

Definition set_total_games (t : Tournament) (n : Z) : Tournament :=
  mkTournament (name t) (time_control t) (increment t) (rounds t)
    (opening_book t) (stats t) (games t) (current_game t) n.

Definition bump_current_game (t : Tournament) : Tournament :=
  mkTournament (name t) (time_control t) (increment t) (rounds t)
    (opening_book t) (stats t) (games t) (current_game t + 1) (total_games t).

Definition append_game (t : Tournament) (g : GameInfo) : Tournament :=
  mkTournament (name t) (time_control t) (increment t) (rounds t)
    (opening_book t) (stats t) (games t ++ [g]) (current_game t) (total_games t).

(** [random.choice(self.opening_book) if self.opening_book else []] *)
Definition choose_opening (t : Tournament) (w : World) : list string * World :=
  match opening_book t with
  | [] => ([], w)
  | _ :: _ =>
      (default [] (opening_book t !! (rng (draws_used w) mod length (opening_book t))%nat),
       mkWorld (S (draws_used w)) (launched w))
  end.

(** [Tournament._play_game].  The two accumulators are looked up before
    either is changed, and a missing one raises [KeyError], which the
    enclosing handler turns into a counted slot.  The accumulators are
    objects shared with [self.stats], so the second update sees the first.
    The progress callback and the PGN file are left out: their failures are
    caught and they do not change the tournament. *)
Definition _play_game (white_config black_config : EngineConfig)
    (opening : list string) (tw : Tournament * World) : Tournament * World :=
  let '(t, w) := tw in
  let setup := mkSetup (cfg_path white_config) (cfg_path black_config)
                 (time_control t) (increment t) opening in
  let r := run_match setup (length (launched w)) in
  let w := mkWorld (draws_used w) (launched w ++ [setup]) in
  match stats t !! cfg_name white_config, stats t !! cfg_name black_config with
  | Some _, Some _ =>
      let wn := cfg_name white_config in
      let bn := cfg_name black_config in
      let st :=
        if decide (winner r = Some "white") then
          alter (add_result "loss" "black" (nodes_black r)) bn
            (alter (add_result "win" "white" (nodes_white r)) wn (stats t))
        else if decide (winner r = Some "black") then
          alter (add_result "win" "black" (nodes_black r)) bn
            (alter (add_result "loss" "white" (nodes_white r)) wn (stats t))
        else
          alter (add_result "draw" "black" (nodes_black r)) bn
            (alter (add_result "draw" "white" (nodes_white r)) wn (stats t)) in
      let game_info := mkGame (current_game t + 1) wn bn (winner r) (reason r)
                         (Z.of_nat (length (moves r))) (pgn r) in
      (bump_current_game (append_game (set_stats t st) game_info), w)
  | _, _ => (bump_current_game t, w)
  end.

(** The body both schedulers run for one pairing: resolve the two names,
    skip the pairing when either is unknown, pick the opening, play the game
    and then the game with colours reversed. *)
Definition play_pairing (tw : Tournament * World) (p : string * string)
    : Tournament * World :=
  let '(first_name, second_name) := p in
  match get_engine engines first_name, get_engine engines second_name with
  | Some first_config, Some second_config =>
      let '(t, w) := tw in
      let '(opening, w) := choose_opening t w in
      let tw := _play_game first_config second_config opening (t, w) in
      _play_game second_config first_config opening tw
  | _, _ => tw
  end.

Definition play_round (pairings : list (string * string))
    (tw : Tournament * World) : Tournament * World :=
  foldl play_pairing tw pairings.

(** [for round_num in range(self.rounds)] *)
Definition play_rounds (pairings : list (string * string))
    (tw : Tournament * World) : Tournament * World :=
  Nat.iter (Z.to_nat (rounds (fst tw))) (play_round pairings) tw.

Definition init_stats (names : list string) (t : Tournament) : Tournament :=
  set_stats t (foldl (fun st n => <[n := new_stats n]> st) (stats t) names).

(** [Tournament.run_round_robin], up to the report it returns. *)
Definition run_round_robin (engine_names : list string)
    (tw : Tournament * World) : Tournament * World :=
  let '(t, w) := tw in
  let t := init_stats engine_names t in
  let pairings := combinations2 engine_names in
  let t := set_total_games t (Z.of_nat (length pairings) * rounds t * 2) in
  play_rounds pairings (t, w).

(** [Tournament.run_gauntlet], up to the report it returns. *)
Definition run_gauntlet (test_engine : string) (opponent_engines : list string)
    (tw : Tournament * World) : Tournament * World :=
  let '(t, w) := tw in
  let t := init_stats (test_engine :: opponent_engines) t in
  let t := set_total_games t (Z.of_nat (length opponent_engines) * rounds t * 2) in
  play_rounds (map (pair test_engine) opponent_engines) (t, w).

(** *** What one game, one pairing and one round change *)

(** The settings no game touches. *)
Definition same_settings (t t' : Tournament) : Prop :=
  time_control t' = time_control t /\ increment t' = increment t /\
  rounds t' = rounds t /\ opening_book t' = opening_book t.

Lemma same_settings_refl t : same_settings t t.
Proof. repeat split. Qed.

Lemma same_settings_trans t1 t2 t3 :
  same_settings t1 t2 -> same_settings t2 t3 -> same_settings t1 t3.
Proof. unfold same_settings; intuition congruence. Qed.

Definition setup_of (t : Tournament) (wc bc : EngineConfig)
    (opening : list string) : MatchSetup :=
  mkSetup (cfg_path wc) (cfg_path bc) (time_control t) (increment t) opening.

Arguments _play_game : simpl never.

Lemma _play_game_effect wc bc opening t w :
  let tw' := _play_game wc bc opening (t, w) in
  same_settings t (fst tw') /\
  current_game (fst tw') = current_game t + 1 /\
  draws_used (snd tw') = draws_used w /\
  launched (snd tw') = launched w ++ [setup_of t wc bc opening].
Proof.
  unfold _play_game, setup_of; simpl.
  destruct (stats t !! cfg_name wc), (stats t !! cfg_name bc); simpl;
    repeat split.
Qed.

(** The opening the [k]-th draw selects. *)
Definition opening_at (t : Tournament) (k : nat) : list string :=
  default [] (opening_book t !! (rng k mod length (opening_book t))%nat).

(** Random numbers one pairing consumes. *)
Definition draws_per_pairing (t : Tournament) : nat :=
  match opening_book t with [] => 0%nat | _ :: _ => 1%nat end.

Definition pairing_opening (t : Tournament) (k : nat) : list string :=
  match opening_book t with [] => [] | _ :: _ => opening_at t k end.

Lemma choose_opening_spec t w :
  choose_opening t w =
    (pairing_opening t (draws_used w),
     mkWorld (draws_used w + draws_per_pairing t) (launched w)).
Proof.
  unfold choose_opening, pairing_opening, draws_per_pairing, opening_at.
  destruct (opening_book t); simpl.
  - rewrite Nat.add_0_r. now destruct w.
  - now rewrite Nat.add_1_r.
Qed.

(** The matches a pairing launches when the [k]-th draw is the next one. *)
Definition pairing_setups (t : Tournament) (k : nat) (p : string * string)
    : list MatchSetup :=
  match get_engine engines p.1, get_engine engines p.2 with
  | Some a, Some b =>
      [setup_of t a b (pairing_opening t k); setup_of t b a (pairing_opening t k)]
  | _, _ => []
  end.

Definition pairing_draws (t : Tournament) (p : string * string) : nat :=
  match get_engine engines p.1, get_engine engines p.2 with
  | Some _, Some _ => draws_per_pairing t
  | _, _ => 0%nat
  end.

Lemma setup_of_settings t t' a b o :
  same_settings t t' -> setup_of t' a b o = setup_of t a b o.
Proof. intros (H1 & H2 & _). unfold setup_of. now rewrite H1, H2. Qed.

Lemma pairing_opening_settings t t' k :
  same_settings t t' -> pairing_opening t' k = pairing_opening t k.
Proof.
  intros (_ & _ & _ & H). unfold pairing_opening, opening_at. now rewrite H.
Qed.

Lemma pairing_setups_settings t t' k p :
  same_settings t t' -> pairing_setups t' k p = pairing_setups t k p.
Proof.
  intros H. unfold pairing_setups.
  destruct (get_engine engines p.1), (get_engine engines p.2); try reflexivity.
  now rewrite !(setup_of_settings t t'), (pairing_opening_settings t t').
Qed.

Lemma pairing_draws_settings t t' p :
  same_settings t t' -> pairing_draws t' p = pairing_draws t p.
Proof.
  intros (_ & _ & _ & H). unfold pairing_draws, draws_per_pairing.
  now rewrite H.
Qed.

Lemma play_pairing_effect p t w :
  let tw' := play_pairing (t, w) p in
  same_settings t (fst tw') /\
  current_game (fst tw') =
    current_game t + Z.of_nat (length (pairing_setups t (draws_used w) p)) /\
  draws_used (snd tw') = (draws_used w + pairing_draws t p)%nat /\
  launched (snd tw') = launched w ++ pairing_setups t (draws_used w) p.
Proof.
  destruct p as [a b]. unfold play_pairing, pairing_setups, pairing_draws; simpl.
  destruct (get_engine engines a) as [ca|], (get_engine engines b) as [cb|];
    simpl; rewrite ?Z.add_0_r, ?Nat.add_0_r, ?app_nil_r;
    try (repeat split; fail).
  rewrite choose_opening_spec.
  set (w1 := mkWorld _ _).
  pose proof (_play_game_effect ca cb (pairing_opening t (draws_used w)) t w1)
    as (S1 & C1 & D1 & L1).
  destruct (_play_game ca cb _ (t, w1)) as [t1 w2]; simpl in *.
  pose proof (_play_game_effect cb ca (pairing_opening t (draws_used w)) t1 w2)
    as (S2 & C2 & D2 & L2).
  destruct (_play_game cb ca _ (t1, w2)) as [t2 w3]; simpl in *.
  split; [eapply same_settings_trans; eassumption|].
  split; [lia|]. split; [congruence|].
  rewrite L2, L1, (setup_of_settings t t1) by assumption.
  now rewrite <- app_assoc.
Qed.

(** The matches of one round, and the draws it consumes. *)
Fixpoint round_setups (t : Tournament) (k : nat) (ps : list (string * string))
    : list MatchSetup :=
  match ps with
  | [] => []
  | p :: ps => pairing_setups t k p ++ round_setups t (k + pairing_draws t p) ps
  end.

Fixpoint round_draws (t : Tournament) (ps : list (string * string)) : nat :=
  match ps with
  | [] => 0%nat
  | p :: ps => (pairing_draws t p + round_draws t ps)%nat
  end.

Lemma play_round_effect ps : forall t w,
  let tw' := play_round ps (t, w) in
  same_settings t (fst tw') /\
  current_game (fst tw') =
    current_game t + Z.of_nat (length (round_setups t (draws_used w) ps)) /\
  draws_used (snd tw') = (draws_used w + round_draws t ps)%nat /\
  launched (snd tw') = launched w ++ round_setups t (draws_used w) ps.
Proof.
  unfold play_round.
  induction ps as [|p ps IH]; intros t w; simpl.
  - rewrite Z.add_0_r, Nat.add_0_r, app_nil_r.
    repeat split.
  - pose proof (play_pairing_effect p t w) as (S1 & C1 & D1 & L1).
    destruct (play_pairing (t, w) p) as [t1 w1]; simpl in *.
    specialize (IH t1 w1); simpl in IH. destruct IH as (S2 & C2 & D2 & L2).
    assert (R : forall k, round_setups t1 k ps = round_setups t k ps).
    { clear -S1. induction ps as [|q qs IHq]; intros k; simpl; [reflexivity|].
      now rewrite IHq, (pairing_setups_settings t t1),
        (pairing_draws_settings t t1). }
    assert (Rd : round_draws t1 ps = round_draws t ps).
    { clear -S1. induction ps as [|q qs IHq]; simpl; [reflexivity|].
      now rewrite IHq, (pairing_draws_settings t t1). }
    rewrite R in C2, L2. rewrite Rd in D2.
    split; [eapply same_settings_trans; eassumption|].
    rewrite length_app, Nat2Z.inj_add.
    split; [rewrite C2, C1, D1; lia|].
    split; [lia|].
    rewrite L2, L1, D1. now rewrite <- app_assoc.
Qed.

(** The matches of [r] rounds. *)
Fixpoint rounds_setups (t : Tournament) (k : nat) (ps : list (string * string))
    (r : nat) : list MatchSetup :=
  match r with
  | O => []
  | S r => round_setups t k ps ++ rounds_setups t (k + round_draws t ps) ps r
  end.

Lemma iter_rounds_effect ps r : forall t w,
  let tw' := Nat.iter r (play_round ps) (t, w) in
  same_settings t (fst tw') /\
  current_game (fst tw') =
    current_game t + Z.of_nat (length (rounds_setups t (draws_used w) ps r)) /\
  draws_used (snd tw') = (draws_used w + r * round_draws t ps)%nat /\
  launched (snd tw') = launched w ++ rounds_setups t (draws_used w) ps r.
Proof.
  induction r as [|r IH]; intros t w.
  - simpl. rewrite Z.add_0_r, Nat.add_0_r, app_nil_r. repeat split.
  - rewrite Nat.iter_succ_r.
    pose proof (play_round_effect ps t w) as (S1 & C1 & D1 & L1).
    destruct (play_round ps (t, w)) as [t1 w1]; simpl in S1, C1, D1, L1.
    specialize (IH t1 w1). cbv zeta in IH. destruct IH as (S2 & C2 & D2 & L2).
    assert (Rd : round_draws t1 ps = round_draws t ps).
    { clear -S1. induction ps as [|q qs IHq]; simpl; [reflexivity|].
      now rewrite IHq, (pairing_draws_settings t t1). }
    assert (R : forall n k, rounds_setups t1 k ps n = rounds_setups t k ps n).
    { clear -S1 Rd. induction n as [|n IHn]; intros k; simpl; [reflexivity|].
      rewrite IHn, Rd. f_equal.
      clear -S1. revert k. induction ps as [|q qs IHq]; intros k; simpl; [reflexivity|].
      now rewrite IHq, (pairing_setups_settings t t1),
        (pairing_draws_settings t t1). }
    rewrite R in C2, L2. rewrite Rd in D2. cbv zeta.
    split; [eapply same_settings_trans; eassumption|].
    simpl rounds_setups. rewrite length_app, Nat2Z.inj_add.
    split; [rewrite C2, C1, D1; lia|].
    split; [rewrite D2, D1; simpl; lia|].
    rewrite L2, L1, D1. now rewrite <- app_assoc.
Qed.

(** *** Pairings whose two names are both registered *)

Definition registered (x : string) : Prop := is_Some (get_engine engines x).

Definition both_registered (p : string * string) : Prop :=
  registered p.1 /\ registered p.2.

(** The executable a registered name resolves to. *)
Definition path_of (x : string) : string :=
  default "" (cfg_path <$> get_engine engines x).

Definition colours (s : MatchSetup) : string * string :=
  (white_engine_path s, black_engine_path s).

(** The two games of a pairing, as (white, black) executables. *)
Definition both_colours (p : string * string) : list (string * string) :=
  [(path_of p.1, path_of p.2); (path_of p.2, path_of p.1)].

Lemma pairing_setups_registered t k p :
  both_registered p ->
  map colours (pairing_setups t k p) = both_colours p /\
  map opening_moves (pairing_setups t k p) =
    [pairing_opening t k; pairing_opening t k] /\
  pairing_draws t p = draws_per_pairing t.
Proof.
  intros [[a Ha] [b Hb]].
  unfold pairing_setups, pairing_draws, both_colours, path_of.
  rewrite Ha, Hb. repeat split.
Qed.

Lemma round_setups_registered t ps : forall k,
  Forall both_registered ps ->
  map colours (round_setups t k ps) = flat_map both_colours ps /\
  length (round_setups t k ps) = (2 * length ps)%nat /\
  round_draws t ps = (length ps * draws_per_pairing t)%nat.
Proof.
  induction ps as [|p ps IH]; intros k Hreg; [repeat split|].
  inversion Hreg as [|? ? Hp Hps]; subst.
  destruct (pairing_setups_registered t k p Hp) as (Hc & Ho & Hd).
  destruct (IH (k + pairing_draws t p)%nat Hps) as (IHc & IHl & IHd).
  simpl. rewrite map_app, length_app, Hc, IHc, IHl, IHd, Hd.
  apply (f_equal (@length _)) in Hc. rewrite length_map in Hc. rewrite Hc.
  repeat split; simpl; lia.
Qed.

Lemma rounds_setups_registered t ps r : forall k,
  Forall both_registered ps ->
  map colours (rounds_setups t k ps r) =
    concat (replicate r (flat_map both_colours ps)) /\
  length (rounds_setups t k ps r) = (r * (2 * length ps))%nat.
Proof.
  induction r as [|r IH]; intros k Hreg; [repeat split|].
  destruct (round_setups_registered t ps k Hreg) as (Hc & Hl & _).
  destruct (IH (k + round_draws t ps)%nat Hreg) as (IHc & IHl).
  simpl. rewrite map_app, length_app, Hc, IHc, Hl, IHl.
  split; [reflexivity | lia].
Qed.

(** With an opening pool, the openings of a round are those of consecutive
    draws, each used for two games in a row. *)
Definition twice {A} (x : A) : list A := [x; x].

Lemma round_openings_pool t ps : forall k,
  opening_book t <> [] -> Forall both_registered ps ->
  map opening_moves (round_setups t k ps) =
    flat_map (fun j => twice (opening_at t j)) (seq k (length ps)).
Proof.
  intros k Hbook.
  assert (Hd : draws_per_pairing t = 1%nat)
    by (unfold draws_per_pairing; now destruct (opening_book t)).
  assert (Ho : forall j, pairing_opening t j = opening_at t j)
    by (intros j; unfold pairing_opening; now destruct (opening_book t)).
  revert k. induction ps as [|p ps IH]; intros k Hreg; [reflexivity|].
  inversion Hreg as [|? ? Hp Hps]; subst.
  destruct (pairing_setups_registered t k p Hp) as (_ & Hop & Hdp).
  simpl. rewrite map_app, Hop, Hdp, Hd, Ho, IH by assumption.
  now rewrite Nat.add_1_r.
Qed.

Lemma rounds_openings_pool t ps r : forall k,
  opening_book t <> [] -> Forall both_registered ps ->
  map opening_moves (rounds_setups t k ps r) =
    flat_map (fun j => twice (opening_at t j)) (seq k (r * length ps)).
Proof.
  induction r as [|r IH]; intros k Hbook Hreg; [reflexivity|].
  destruct (round_setups_registered t ps k Hreg) as (_ & _ & Hd).
  assert (H1 : draws_per_pairing t = 1%nat)
    by (unfold draws_per_pairing; now destruct (opening_book t)).
  simpl. rewrite map_app, round_openings_pool, IH, Hd, H1 by assumption.
  rewrite Nat.mul_1_r, seq_app, flat_map_app. reflexivity.
Qed.

(** Without a pool nothing is drawn and every game starts from no prefix. *)
Lemma rounds_openings_no_pool t ps r : forall k,
  opening_book t = [] ->
  Forall (fun s => opening_moves s = []) (rounds_setups t k ps r) /\
  round_draws t ps = 0%nat.
Proof.
  intros k Hbook.
  assert (Hd : forall p, pairing_draws t p = 0%nat).
  { intros p. unfold pairing_draws, draws_per_pairing. rewrite Hbook.
    now destruct (get_engine engines p.1), (get_engine engines p.2). }
  assert (Hp : forall j p, Forall (fun s => opening_moves s = []) (pairing_setups t j p)).
  { intros j p. unfold pairing_setups, pairing_opening. rewrite Hbook.
    destruct (get_engine engines p.1), (get_engine engines p.2);
      repeat constructor. }
  assert (Hr : forall j, Forall (fun s => opening_moves s = []) (round_setups t j ps)).
  { induction ps as [|p ps IH]; intros j; simpl; [constructor|].
    apply Forall_app; split; [apply Hp | apply IH]. }
  split.
  - revert k. induction r as [|r IH]; intros k; simpl; [constructor|].
    apply Forall_app; split; [apply Hr | apply IH].
  - clear Hr. induction ps as [|p ps IH]; simpl; [reflexivity|].
    now rewrite Hd, IH.
Qed.

Lemma opening_at_in_pool t k :
  opening_book t <> [] -> opening_at t k ∈ opening_book t.
Proof.
  intros Hbook. unfold opening_at.
  destruct (lookup_lt_is_Some_2 (opening_book t)
              (rng k mod length (opening_book t))%nat) as [o Ho].
  - apply Nat.mod_upper_bound. now destruct (opening_book t).
  - rewrite Ho. simpl. eapply list_elem_of_lookup_2, Ho.
Qed.

(** *** The pairings of a round robin *)

Lemma combinations2_length {A} (l : list A) :
  (2 * length (combinations2 l) = length l * (length l - 1))%nat.
Proof.
  induction l as [|x l IH]; [reflexivity|].
  simpl. rewrite length_app, length_map. nia.
Qed.

Lemma combinations2_members {A} (l : list A) a b :
  (a, b) ∈ combinations2 l -> a ∈ l /\ b ∈ l.
Proof.
  induction l as [|x l IH]; simpl; [intros H; inversion H|].
  rewrite elem_of_app, list_elem_of_fmap.
  intros [(y & Heq & Hy) | H].
  - inversion Heq; subst. split; [left | now right].
  - destruct (IH H). split; now right.
Qed.

(** Every pair of positions [i < j] is generated, once. *)
Lemma combinations2_lookup {A} (l : list A) a b :
  (a, b) ∈ combinations2 l <->
  exists i j, (i < j)%nat /\ l !! i = Some a /\ l !! j = Some b.
Proof.
  induction l as [|x l IH]; simpl.
  - split; [intros H; inversion H | intros (i & j & _ & H & _); inversion H].
  - rewrite elem_of_app, list_elem_of_fmap, IH. split.
    + intros [(y & Heq & Hy) | (i & j & Hlt & Hi & Hj)].
      * inversion Heq; subst. apply list_elem_of_lookup in Hy as [j Hj].
        exists 0%nat, (S j). repeat split; [lia | assumption].
      * exists (S i), (S j). repeat split; [lia | assumption ..].
    + intros (i & j & Hlt & Hi & Hj).
      destruct j as [|j]; [lia|]. simpl in Hj.
      destruct i as [|i]; simpl in Hi.
      * left. inversion Hi; subst. exists b. split; [reflexivity|].
        eapply list_elem_of_lookup_2, Hj.
      * right. exists i, j. repeat split; [lia | assumption ..].
Qed.

Lemma combinations2_registered names :
  Forall registered names -> Forall both_registered (combinations2 names).
Proof.
  intros Hreg. apply Forall_forall. intros [a b] Hin.
  apply combinations2_members in Hin as [Ha Hb].
  rewrite Forall_forall in Hreg. split; apply Hreg; assumption.
Qed.

Lemma gauntlet_registered test_engine opponents :
  registered test_engine -> Forall registered opponents ->
  Forall both_registered (map (pair test_engine) opponents).
Proof.
  intros Ht Ho. apply Forall_forall. intros [a b] Hin.
  apply list_elem_of_fmap in Hin as (y & Heq & Hy). inversion Heq; subst.
  rewrite Forall_forall in Ho. split; [exact Ht | now apply Ho].
Qed.

(** No game changes the planned total. *)
Lemma _play_game_total wc bc opening tw :
  total_games (fst (_play_game wc bc opening tw)) = total_games (fst tw).
Proof.
  destruct tw as [t w]. unfold _play_game.
  now destruct (stats t !! cfg_name wc), (stats t !! cfg_name bc).
Qed.

Lemma play_pairing_total p tw :
  total_games (fst (play_pairing tw p)) = total_games (fst tw).
Proof.
  destruct p as [a b], tw as [t w]. unfold play_pairing.
  destruct (get_engine engines a), (get_engine engines b); try reflexivity.
  destruct (choose_opening t w) as [o w1].
  now rewrite !_play_game_total.
Qed.

Lemma play_round_total ps : forall tw,
  total_games (fst (play_round ps tw)) = total_games (fst tw).
Proof.
  unfold play_round.
  induction ps as [|p ps IHp]; intros tw; [reflexivity|].
  simpl. now rewrite IHp, play_pairing_total.
Qed.

Lemma play_rounds_total ps tw :
  total_games (fst (play_rounds ps tw)) = total_games (fst tw).
Proof.
  unfold play_rounds. generalize (Z.to_nat (rounds (fst tw))) as r.
  induction r as [|r IH]; [reflexivity|].
  simpl. now rewrite play_round_total.
Qed.

(** *** The claims about the scheduler *)

Lemma init_stats_settings names t : same_settings t (init_stats names t).
Proof. repeat split. Qed.

Lemma rounds_setups_settings t t' ps r : forall k,
  same_settings t t' -> rounds_setups t' k ps r = rounds_setups t k ps r.
Proof.
  intros k S1.
  assert (Rd : round_draws t' ps = round_draws t ps).
  { induction ps as [|q qs IHq]; simpl; [reflexivity|].
    now rewrite IHq, (pairing_draws_settings t t'). }
  revert k. induction r as [|n IHn]; intros k; simpl; [reflexivity|].
  rewrite IHn, Rd. f_equal.
  clear -S1. revert k.
  induction ps as [|q qs IHq]; intros k; simpl; [reflexivity|].
  now rewrite IHq, (pairing_setups_settings t t'), (pairing_draws_settings t t').
Qed.

Lemma play_rounds_effect ps t w :
  let tw' := play_rounds ps (t, w) in
  let r := Z.to_nat (rounds t) in
  same_settings t (fst tw') /\
  current_game (fst tw') =
    current_game t + Z.of_nat (length (rounds_setups t (draws_used w) ps r)) /\
  draws_used (snd tw') = (draws_used w + r * round_draws t ps)%nat /\
  launched (snd tw') = launched w ++ rounds_setups t (draws_used w) ps r.
Proof. apply iter_rounds_effect. Qed.

(** C3, as the code has it: the pairings of a round robin over [n] names
    are the pairs of roster positions [i < j], [n * (n - 1) / 2] of them,
    and [n * (n - 1) * r] games are planned for [r] rounds; when every name
    of the roster is registered with the engine manager and [r] is not
    negative that many games are played as well, namely, in every round,
    each pairing once with either colour assignment. *)
Theorem round_robin_game_count (names : list string) (t : Tournament) (w : World) :
  let n := Z.of_nat (length names) in
  let tw' := run_round_robin names (t, w) in
  (forall a b, (a, b) ∈ combinations2 names <->
     exists i j, (i < j)%nat /\ names !! i = Some a /\ names !! j = Some b) /\
  2 * Z.of_nat (length (combinations2 names)) = n * (n - 1) /\
  total_games (fst tw') = n * (n - 1) * rounds t /\
  (0 <= rounds t -> Forall registered names ->
   current_game (fst tw') = current_game t + n * (n - 1) * rounds t /\
   exists played,
     launched (snd tw') = launched w ++ played /\
     Z.of_nat (length played) = n * (n - 1) * rounds t /\
     map colours played =
       concat (replicate (Z.to_nat (rounds t))
                 (flat_map both_colours (combinations2 names)))).
Proof.
  intros n tw'. subst tw'. unfold run_round_robin.
  set (t1 := set_total_games _ _).
  assert (S1 : same_settings t t1 -> True) by trivial. clear S1.
  assert (Hr : rounds t1 = rounds t) by reflexivity.
  assert (Hc : current_game t1 = current_game t) by reflexivity.
  pose proof (combinations2_length names) as Hlen.
  assert (Hn : 2 * Z.of_nat (length (combinations2 names)) = n * (n - 1)).
  { subst n. destruct names as [|x l]; [reflexivity|].
    simpl length in *. nia. }
  pose proof (play_rounds_effect (combinations2 names) t1 w) as (S2 & C2 & D2 & L2).
  cbv zeta in *.
  split; [intros a b; apply combinations2_lookup|].
  split; [exact Hn|]. split.
  - rewrite play_rounds_total. subst t1. simpl. nia.
  - intros Hpos Hreg.
    destruct (rounds_setups_registered t1 (combinations2 names)
                (Z.to_nat (rounds t1)) (draws_used w)
                (combinations2_registered names Hreg)) as (Hcol & Hl).
    assert (Hcount : Z.of_nat (length (rounds_setups t1 (draws_used w)
                        (combinations2 names) (Z.to_nat (rounds t1))))
                     = n * (n - 1) * rounds t).
    { rewrite Hl, Hr, Nat2Z.inj_mul, Nat2Z.inj_mul, Z2Nat.id by assumption.
      change (Z.of_nat 2) with 2. nia. }
    split; [rewrite C2, Hc, Hcount; reflexivity|].
    eexists. split; [exact L2|]. split; [exact Hcount|].
    rewrite Hcol, Hr. reflexivity.
Qed.

(** C8, as the code has it: with an opening pool configured, each pairing of
    each round takes one draw from the pool, and both of its colour-swapped
    games are played from the prefix that draw selected; this holds for the
    round robin and for the gauntlet, and every prefix comes from the pool. *)
Theorem opening_drawn_once_per_pairing (names : list string)
    (test_engine : string) (opponent_engines : list string)
    (t : Tournament) (w : World) :
  opening_book t <> [] ->
  let r := Z.to_nat (rounds t) in
  (Forall registered names ->
   let tw' := run_round_robin names (t, w) in
   let m := (r * length (combinations2 names))%nat in
   draws_used (snd tw') = (draws_used w + m)%nat /\
   exists played,
     launched (snd tw') = launched w ++ played /\
     map opening_moves played =
       flat_map (fun j => twice (opening_at t j)) (seq (draws_used w) m)) /\
  (registered test_engine -> Forall registered opponent_engines ->
   let tw' := run_gauntlet test_engine opponent_engines (t, w) in
   let m := (r * length opponent_engines)%nat in
   draws_used (snd tw') = (draws_used w + m)%nat /\
   exists played,
     launched (snd tw') = launched w ++ played /\
     map opening_moves played =
       flat_map (fun j => twice (opening_at t j)) (seq (draws_used w) m)) /\
  (forall j, opening_at t j ∈ opening_book t).
Proof.
  intros Hbook r.
  assert (Gen : forall ps t1, same_settings t t1 -> Forall both_registered ps ->
    let tw' := play_rounds ps (t1, w) in
    let m := (r * length ps)%nat in
    draws_used (snd tw') = (draws_used w + m)%nat /\
    exists played,
      launched (snd tw') = launched w ++ played /\
      map opening_moves played =
        flat_map (fun j => twice (opening_at t j)) (seq (draws_used w) m)).
  { intros ps t1 S1 Hreg.
    pose proof (play_rounds_effect ps t1 w) as (_ & _ & D2 & L2).
    cbv zeta in *.
    assert (Hr : rounds t1 = rounds t) by apply S1.
    assert (Hb : opening_book t1 = opening_book t) by apply S1.
    destruct (round_setups_registered t1 ps (draws_used w) Hreg) as (_ & _ & Hd).
    assert (H1 : draws_per_pairing t1 = 1%nat).
    { unfold draws_per_pairing. rewrite Hb. now destruct (opening_book t). }
    rewrite Hr in D2, L2. fold r in D2, L2. split.
    - rewrite D2, Hd, H1. lia.
    - eexists. split; [exact L2|].
      rewrite (rounds_setups_settings t t1) by assumption.
      now apply rounds_openings_pool. }
  split; [|split].
  - intros Hreg. unfold run_round_robin.
    apply Gen; [repeat split | now apply combinations2_registered].
  - intros Ht Ho. unfold run_gauntlet.
    specialize (Gen (map (pair test_engine) opponent_engines)).
    rewrite length_map in Gen.
    apply Gen; [repeat split | now apply gauntlet_registered].
  - intros j. now apply opening_at_in_pool.
Qed.


End Scheduler.

(** *** Small tournaments to evaluate the scheduler on *)

Definition demo_engines : gmap string EngineConfig :=
  <["A" := mkConfig "A" "Engines/A.exe" true 60000]>
  (<["B" := mkConfig "B" "Engines/B.exe" true 60000]>
  (<["C" := mkConfig "C" "Engines/C.exe" true 60000]> ∅)).

(** A registry that knows "A" only. *)
Definition lone_engine : gmap string EngineConfig :=
  <["A" := mkConfig "A" "Engines/A.exe" true 60000]> ∅.

(** The generator that returns 0, 1, 2, ... *)
Definition counting_rng (k : nat) : nat := k.

Definition drawn_match (_ : MatchSetup) (_ : nat) : MatchResult :=
  mkResult (Some "draw") "Stalemate" [] "" 1000 1000 10 20.

(** A match that ends in the handler of [Match.play]. *)
Definition failed_match (_ : MatchSetup) (_ : nat) : MatchResult :=
  mkResult (Some "error") "Failed to start engines" [] "" 0 0 0 0.

Definition two_openings : list (list string) := [["e2e4"]; ["d2d4"]].

(** The claim of the specification read as a schedule: every game takes a
    draw of its own, so [n] games starting at draw [k] use draws
    [k .. k + n - 1]. *)
Definition openings_drawn_per_game (rng : nat -> nat) (t : Tournament)
    (k n : nat) : list (list string) :=
  map (opening_at rng t) (seq k n).

(** C3, the claim as worded fails: a roster of two names of which one is not
    registered plans two games and plays none. *)
Lemma round_robin_unregistered_plays_none :
  let tw' := run_round_robin lone_engine counting_rng drawn_match ["A"; "B"]
               (new_tournament "cup" 60000 0 1 [], start_world) in
  total_games (fst tw') = 2 * (2 - 1) * 1 /\
  current_game (fst tw') = 0 /\
  launched (snd tw') = [] /\
  current_game (fst tw') <> 2 * (2 - 1) * 1.
Proof. vm_compute. repeat split; discriminate. Qed.

(** Three registered engines, one round: six games, each pairing with both
    colour assignments. *)
Lemma round_robin_game_count_witness :
  let tw' := run_round_robin demo_engines counting_rng drawn_match
               ["A"; "B"; "C"]
               (new_tournament "cup" 60000 0 1 [], start_world) in
  total_games (fst tw') = 6 /\ current_game (fst tw') = 6 /\
  map colours (launched (snd tw')) =
    [("Engines/A.exe", "Engines/B.exe"); ("Engines/B.exe", "Engines/A.exe");
     ("Engines/A.exe", "Engines/C.exe"); ("Engines/C.exe", "Engines/A.exe");
     ("Engines/B.exe", "Engines/C.exe"); ("Engines/C.exe", "Engines/B.exe")].
Proof.
  destruct (round_robin_game_count demo_engines counting_rng drawn_match
              ["A"; "B"; "C"] (new_tournament "cup" 60000 0 1 []) start_world)
    as (_ & _ & Htotal & Hplayed).
  destruct Hplayed as (Hcur & played & Hl & _ & Hcol).
  - simpl. lia.
  - repeat constructor; eexists; reflexivity.
  - cbv zeta. split; [exact Htotal|]. split; [exact Hcur|].
    rewrite Hl. exact Hcol.
Defined.

(** C8, the claim as worded fails: with two openings in the pool and a
    generator that would give the second game the second opening, both games
    of the pairing are played from the first opening, and one number is
    drawn for the two games. *)
Lemma pairing_shares_one_opening :
  let t := new_tournament "cup" 60000 0 1 two_openings in
  let tw' := run_round_robin demo_engines counting_rng drawn_match ["A"; "B"]
               (t, start_world) in
  map opening_moves (launched (snd tw')) = [["e2e4"]; ["e2e4"]] /\
  openings_drawn_per_game counting_rng t 0 2 = [["e2e4"]; ["d2d4"]] /\
  map opening_moves (launched (snd tw')) <>
    openings_drawn_per_game counting_rng t 0 (length (launched (snd tw'))) /\
  draws_used (snd tw') <> length (launched (snd tw')).
Proof. vm_compute. repeat split; discriminate. Qed.

(** A gauntlet of two rounds against two opponents: four draws for eight
    games. *)
Lemma opening_drawn_once_per_pairing_witness :
  let t := new_tournament "cup" 60000 0 2 two_openings in
  let tw' := run_gauntlet demo_engines counting_rng drawn_match "A" ["B"; "C"]
               (t, start_world) in
  draws_used (snd tw') = 4%nat /\
  map opening_moves (launched (snd tw')) =
    [["e2e4"]; ["e2e4"]; ["d2d4"]; ["d2d4"];
     ["e2e4"]; ["e2e4"]; ["d2d4"]; ["d2d4"]].
Proof.
  destruct (opening_drawn_once_per_pairing demo_engines counting_rng drawn_match
              ["A"; "B"; "C"] "A" ["B"; "C"]
              (new_tournament "cup" 60000 0 2 two_openings) start_world)
    as (_ & Hg & _).
  - discriminate.
  - destruct Hg as (Hd & played & Hl & Ho).
    + eexists; reflexivity.
    + repeat constructor; eexists; reflexivity.
    + cbv zeta. split; [exact Hd|]. rewrite Hl. exact Ho.
Defined.


End Tournament.

(** ** backend/uci_interface.py: text helpers *)

(** Characters are 8-bit.  [is_space] is Python's notion of whitespace
    ([str.strip], [\s]) and [is_word] its notion of a word character ([\w])
    on that range. *)
Definition is_space (a : ascii) : bool :=
  let n := nat_of_ascii a in
  ((9 <=? n) && (n <=? 13) || (28 <=? n) && (n <=? 32)
   || (n =? 133) || (n =? 160))%nat.

Definition is_word (a : ascii) : bool :=
  let n := nat_of_ascii a in
  ((48 <=? n) && (n <=? 57) || (65 <=? n) && (n <=? 90)
   || (97 <=? n) && (n <=? 122) || (n =? 95)
   || (n =? 170) || (n =? 178) || (n =? 179) || (n =? 181)
   || (n =? 185) || (n =? 186) || (188 <=? n) && (n <=? 190)
   || (192 <=? n) && (n <=? 214) || (216 <=? n) && (n <=? 246)
   || (248 <=? n))%nat.

Definition non_space (a : ascii) : bool := negb (is_space a).

(** [s.startswith(p)], returning what follows the prefix. *)
Fixpoint strip_prefix (p s : string) : option string :=
  match p, s with
  | EmptyString, _ => Some s
  | String a p', String b s' =>
      if Ascii.eqb a b then strip_prefix p' s' else None
  | String _ _, EmptyString => None
  end.

Definition startswith (p s : string) : bool :=
  match strip_prefix p s with Some _ => true | None => false end.

(** [needle in hay] *)
Fixpoint contains (needle hay : string) : bool :=
  if startswith needle hay then true
  else match hay with
       | EmptyString => false
       | String _ hay' => contains needle hay'
       end.

(** The longest prefix whose characters satisfy [p], and the rest. *)
Fixpoint span (p : ascii -> bool) (s : string) : string * string :=
  match s with
  | EmptyString => (EmptyString, EmptyString)
  | String a s' =>
      if p a then let '(run, rest) := span p s' in (String a run, rest)
      else (EmptyString, s)
  end.

Fixpoint lstrip (s : string) : string :=
  match s with
  | EmptyString => EmptyString
  | String a s' => if is_space a then lstrip s' else s
  end.

Fixpoint rstrip (s : string) : string :=
  match s with
  | EmptyString => EmptyString
  | String a s' =>
      match rstrip s' with
      | EmptyString => if is_space a then EmptyString else String a EmptyString
      | r => String a r
      end
  end.

(** [s.strip()] *)
Definition strip (s : string) : string := rstrip (lstrip s).

(** [s[n:]] *)
Fixpoint drop_chars (n : nat) (s : string) : string :=
  match n, s with
  | O, _ => s
  | S n', String _ s' => drop_chars n' s'
  | S _, EmptyString => EmptyString
  end.

Definition lower_char (a : ascii) : ascii :=
  let n := nat_of_ascii a in
  if ((65 <=? n) && (n <=? 90) || (192 <=? n) && (n <=? 214)
      || (216 <=? n) && (n <=? 222))%nat
  then ascii_of_nat (n + 32) else a.

(** [s.lower()] *)
Fixpoint lower (s : string) : string :=
  match s with
  | EmptyString => EmptyString
  | String a s' => String (lower_char a) (lower s')
  end.

(** [re.search(kw + "(C+)", s)] for a literal [kw] and a character class
    [C]: at the first place where [kw] is followed by a character of the
    class, the longest run of such characters. *)
Fixpoint search_after (kw : string) (p : ascii -> bool) (s : string)
    : option string :=
  let here :=
    match strip_prefix kw s with
    | Some after =>
        match fst (span p after) with
        | EmptyString => None
        | run => Some run
        end
    | None => None
    end in
  match here with
  | Some run => Some run
  | None =>
      match s with
      | EmptyString => None
      | String _ s' => search_after kw p s'
      end
  end.

Fixpoint last_char (s : string) : string :=
  match s with
  | EmptyString => EmptyString
  | String a EmptyString => s
  | String _ s' => last_char s'
  end.

(** The optional group [(?:\s+type\s+(.+))?$] tried on [tail], a text
    without newline: the result is what [(.+)] captures.  Both [\s+] take
    all the whitespace they can; the second gives one character back only
    when nothing else is left for [(.+)]. *)
Definition type_clause (tail : string) : option string :=
  let '(w1, t1) := span is_space tail in
  match w1 with
  | EmptyString => None
  | String _ _ =>
      match strip_prefix "type" t1 with
      | None => None
      | Some t2 =>
          let '(w2, x) := span is_space t2 in
          match w2, x with
          | EmptyString, _ => None
          | String _ _, String _ _ => Some x
          | String _ (String _ _), EmptyString => Some (last_char w2)
          | String _ EmptyString, EmptyString => None
          end
      end
  end.

(** [(.+?)] followed by the optional group and [$]: the name already holds
    [first]; it grows one character at a time until what follows is the
    type clause or the end of the line. *)
Fixpoint split_name (first : ascii) (tail : string)
    : string * option string :=
  match type_clause tail with
  | Some rest => (String first EmptyString, Some rest)
  | None =>
      match tail with
      | EmptyString => (String first EmptyString, None)
      | String a tail' =>
          let '(n, r) := split_name a tail' in (String first n, r)
      end
  end.

(** [re.match(r'option name (.+?)(?:\s+type\s+(.+))?$', line)] on a line
    without newline (the reader splits the output at newlines): groups 1
    and 2. *)
Definition option_regex (line : string) : option (string * option string) :=
  match strip_prefix "option name " line with
  | Some (String a tail) => Some (split_name a tail)
  | _ => None
  end.

(** [UCIEngine._parse_option], on the options mapping. *)
Definition _parse_option (line : string)
    (options : gmap string (gmap string string))
    : gmap string (gmap string string) :=
  match option_regex line with
  | Some (g1, g2) =>
      let name := strip g1 in
      let rest := default "" g2 in
      let option_info : gmap string string := {[ "raw" := line ]} in
      let option_info :=
        if contains "type" rest then
          match search_after "type " is_word rest with
          | Some v => <["type" := v]> option_info
          | None => option_info
          end
        else option_info in
      let option_info :=
        if contains "default" rest then
          match search_after "default " non_space rest with
          | Some v => <["default" := v]> option_info
          | None => option_info
          end
        else option_info in
      <[name := option_info]> options
  | None => options
  end.

Definition hash_line : string :=
  "option name Hash type spin default 16 min 1 max 65536".

Example regex_button_line :
  option_regex "option name Clear Hash type button"
    = Some ("Clear Hash", Some "button").
Proof. reflexivity. Qed.

Example regex_bare_line : option_regex "option name Ponder" = Some ("Ponder", None).
Proof. reflexivity. Qed.

Example regex_no_name : option_regex "option name" = None.
Proof. reflexivity. Qed.

Example parse_hash_line :
  _parse_option hash_line ∅ =
    {[ "Hash" := <["default" := "16"]> {[ "raw" := hash_line ]} ]}.
Proof. vm_compute. reflexivity. Qed.

(** *** What the text helpers find *)

Lemma append_cons a s r : String a s +:+ r = String a (s +:+ r).
Proof. reflexivity. Qed.

Lemma append_empty r : EmptyString +:+ r = r.
Proof. reflexivity. Qed.

Lemma strip_prefix_app p : forall s r,
  strip_prefix p s = Some r -> s = p +:+ r.
Proof.
  induction p as [|a p IH]; intros s r H; simpl in *;
    [inversion H; reflexivity|].
  destruct s as [|b s]; [discriminate|].
  destruct (Ascii.eqb_spec a b); [|discriminate].
  subst. rewrite append_cons. f_equal. now apply IH.
Qed.

Lemma span_app p s : s = fst (span p s) +:+ snd (span p s).
Proof.
  induction s as [|a s IH]; [reflexivity|].
  simpl. destruct (p a); [|reflexivity].
  destruct (span p s) as [run rest]. simpl in *.
  rewrite append_cons. now f_equal.
Qed.

Lemma startswith_shorter p1 p2 : forall s,
  startswith (p1 +:+ p2) s = true -> startswith p1 s = true.
Proof.
  unfold startswith.
  induction p1 as [|a p1 IH]; intros s H; [reflexivity|].
  rewrite append_cons in H. simpl in *. destruct s as [|b s]; [discriminate|].
  destruct (Ascii.eqb a b); [now apply IH | discriminate].
Qed.

Lemma startswith_head_ne x p a l :
  x <> a -> startswith (String x p) (String a l) = false.
Proof.
  intros Hne. unfold startswith. cbn [strip_prefix].
  destruct (Ascii.eqb_spec x a); [contradiction | reflexivity].
Qed.

Lemma search_here kw p s after :
  strip_prefix kw s = Some after ->
  s = EmptyString +:+ kw +:+ fst (span p after) +:+ snd (span p after).
Proof.
  intros Hp. apply strip_prefix_app in Hp.
  now rewrite append_empty, <- span_app.
Qed.

(** What [search_after] returns stands in the text right after the
    keyword, and is not empty. *)
Lemma search_after_occurs kw p s v :
  search_after kw p s = Some v ->
  v <> EmptyString /\ exists pre post, s = pre +:+ kw +:+ v +:+ post.
Proof.
  induction s as [|a s IH].
  - simpl. destruct (strip_prefix kw EmptyString) as [after|] eqn:Hp; [|discriminate].
    pose proof (search_here kw p _ _ Hp) as Hs.
    destruct (fst (span p after)) as [|b run]; [discriminate|].
    intros H; inversion H; subst v. split; [discriminate|]. eauto.
  - simpl.
    assert (Hnext : search_after kw p s = Some v ->
      v <> EmptyString /\ exists pre post, String a s = pre +:+ kw +:+ v +:+ post).
    { intros H. destruct (IH H) as (Hv & pre & post & E).
      split; [exact Hv|]. exists (String a pre), post.
      rewrite append_cons. now f_equal. }
    destruct (strip_prefix kw (String a s)) as [after|] eqn:Hp; [|exact Hnext].
    pose proof (search_here kw p _ _ Hp) as Hs.
    destruct (fst (span p after)) as [|b run]; [exact Hnext|].
    intros H; inversion H; subst v. split; [discriminate|]. eauto.
Qed.

Lemma search_after_contains kw1 kw2 p s v :
  search_after (kw1 +:+ kw2) p s = Some v -> contains kw1 s = true.
Proof.
  induction s as [|a s IH]; simpl.
  - destruct (strip_prefix (kw1 +:+ kw2) EmptyString) as [after|] eqn:Hp;
      [|discriminate].
    intros _. rewrite (startswith_shorter kw1 kw2); [reflexivity|].
    unfold startswith. now rewrite Hp.
  - destruct (startswith kw1 (String a s)) eqn:Hs; [reflexivity|].
    destruct (strip_prefix (kw1 +:+ kw2) (String a s)) as [after|] eqn:Hp.
    + rewrite (startswith_shorter kw1 kw2) in Hs; [discriminate|].
      unfold startswith. now rewrite Hp.
    + exact IH.
Qed.

(** What [_parse_option] stores for a line the pattern matches. *)
Lemma _parse_option_matched line g1 g2 options :
  option_regex line = Some (g1, g2) ->
  exists info : gmap string string,
    _parse_option line options = <[strip g1 := info]> options /\
    info !! "raw" = Some line /\
    info !! "default" = search_after "default " non_space (default "" g2) /\
    info !! "min" = None /\ info !! "max" = None.
Proof.
  intros Hm. unfold _parse_option. rewrite Hm.
  set (rest := default "" g2).
  set (i1 := if contains "type" rest then _ else _).
  assert (H1 : i1 !! "raw" = Some line /\ i1 !! "default" = None /\
               i1 !! "min" = None /\ i1 !! "max" = None).
  { subst i1. destruct (contains "type" rest);
      [destruct (search_after "type " is_word rest)|]; repeat split. }
  destruct H1 as (Hr & Hd & Hmin & Hmax).
  eexists. split; [reflexivity|].
  destruct (search_after "default " non_space rest) as [v|] eqn:Hs.
  - rewrite (search_after_contains "default" " " _ _ _ Hs).
    rewrite lookup_insert_eq, !lookup_insert_ne by discriminate.
    now repeat split.
  - destruct (contains "default" rest); now repeat split.
Qed.

Lemma _parse_option_unmatched line options :
  option_regex line = None -> _parse_option line options = options.
Proof. intros Hm. unfold _parse_option. now rewrite Hm. Qed.

(** ** backend/uci_interface.py: UCIEngine *)

Module UCI.

(** The engine process as the client sees it. *)
Record Process := mkProcess {
  pid : Z;
  alive : bool;                          (* it has not exited *)
  stdin_ok : bool;                       (* a write to its stdin succeeds *)
  exits_on_quit : bool;                  (* it exits within the wait of [quit] *)
  respond : string -> list (Z * string)  (* the lines a command makes it
                                            print, each with its delay in ms *)
}.

(** The client object, with the clock it reads.  Time is in milliseconds.
    [output_queue] lists the lines the reader thread puts on the queue, in
    order, each with its time of arrival; a line whose arrival is later than
    [now] is not on the queue yet. *)
Record UCIEngine := mkEngine {
  engine_path : string;
  timeout : Z;                           (* seconds *)
  process : option Process;
  output_queue : list (Z * string);
  running : bool;
  name : string;
  author : string;
  options : gmap string (gmap string string);
  supports_mate_search : bool;
  now : Z
}.

Definition set_process (p : option Process) (c : UCIEngine) : UCIEngine :=
  mkEngine (engine_path c) (timeout c) p (output_queue c) (running c)
    (name c) (author c) (options c) (supports_mate_search c) (now c).

Definition set_output_queue (q : list (Z * string)) (c : UCIEngine) : UCIEngine :=
  mkEngine (engine_path c) (timeout c) (process c) q (running c)
    (name c) (author c) (options c) (supports_mate_search c) (now c).

Definition set_running (b : bool) (c : UCIEngine) : UCIEngine :=
  mkEngine (engine_path c) (timeout c) (process c) (output_queue c) b
    (name c) (author c) (options c) (supports_mate_search c) (now c).

Definition set_name (s : string) (c : UCIEngine) : UCIEngine :=
  mkEngine (engine_path c) (timeout c) (process c) (output_queue c) (running c)
    s (author c) (options c) (supports_mate_search c) (now c).

Definition set_author (s : string) (c : UCIEngine) : UCIEngine :=
  mkEngine (engine_path c) (timeout c) (process c) (output_queue c) (running c)
    (name c) s (options c) (supports_mate_search c) (now c).

Definition set_options (o : gmap string (gmap string string)) (c : UCIEngine)
    : UCIEngine :=
  mkEngine (engine_path c) (timeout c) (process c) (output_queue c) (running c)
    (name c) (author c) o (supports_mate_search c) (now c).

Definition set_supports_mate_search (b : bool) (c : UCIEngine) : UCIEngine :=
  mkEngine (engine_path c) (timeout c) (process c) (output_queue c) (running c)
    (name c) (author c) (options c) b (now c).

Definition set_now (t : Z) (c : UCIEngine) : UCIEngine :=
  mkEngine (engine_path c) (timeout c) (process c) (output_queue c) (running c)
    (name c) (author c) (options c) (supports_mate_search c) t.

(** [UCIEngine.__init__]; [path_exists] is [Path(engine_path).exists()] and
    [clock] the time of the call. *)
Definition __init__ (path_exists : bool) (clock : Z) (engine_path : string)
    (timeout : Z) : Outcome UCIEngine :=
  if path_exists then
    Returned (mkEngine engine_path timeout None [] false "Unknown" "Unknown"
                ∅ false clock)
  else Raised "FileNotFoundError" ("Engine not found: " +:+ engine_path).

(** [UCIEngine.start]; [spawn] is what [subprocess.Popen] does for the
    path: the new process, or the exception of the operating system. *)
Definition start (spawn : Outcome Process) (c : UCIEngine)
    : Outcome (bool * UCIEngine) :=
  match spawn with
  | Returned p => Returned (true, set_running true (set_process (Some p) c))
  | Raised _ _ => Returned (false, c)
  end.

(** [UCIEngine.send_command]: the write fails on a process that has exited
    or has closed its input; otherwise the lines the command provokes are
    on their way. *)
Definition send_command (command : string) (c : UCIEngine) : Outcome UCIEngine :=
  match process c with
  | None => Raised "RuntimeError" "Engine not started"
  | Some p =>
      if alive p && stdin_ok p then
        Returned (set_output_queue
                    (output_queue c ++
                     map (fun dl => (now c + fst dl, snd dl)) (respond p command))
                    c)
      else Raised "BrokenPipeError" "Broken pipe"
  end.

(** The polling interval of [read_until], [0.1] seconds. *)
Definition poll_ms : Z := 100.

(** [self.output_queue.get(timeout=0.1)]: the next line if it is there or
    arrives within the interval, else [queue.Empty] (here [None]) when the
    interval is over. *)
Definition queue_get (c : UCIEngine) : option string * UCIEngine :=
  match output_queue c with
  | (arrival, line) :: rest =>
      if (arrival <? now c + poll_ms)%Z then
        (Some line, set_output_queue rest (set_now (Z.max (now c) arrival) c))
      else (None, set_now (now c + poll_ms) c)
  | [] => (None, set_now (now c + poll_ms) c)
  end.

(** The loop of [read_until]; [None] when [fuel] iterations do not end it. *)
Fixpoint read_until_loop (fuel : nat) (expected : string)
    (start_time timeout_ms : Z) (lines : list string) (c : UCIEngine)
    : option (list string * UCIEngine) :=
  match fuel with
  | O => None
  | S fuel =>
      if (now c - start_time <? timeout_ms)%Z then
        match queue_get c with
        | (Some line, c') =>
            let lines := lines ++ [line] in
            if contains expected line then Some (lines, c')
            else read_until_loop fuel expected start_time timeout_ms lines c'
        | (None, c') =>
            read_until_loop fuel expected start_time timeout_ms lines c'
        end
      else Some (lines, c)
  end.

(** Iterations that always suffice: one per line of the queue, one per
    polling interval of the deadline, and the last test. *)
Definition read_fuel (timeout_ms : Z) (c : UCIEngine) : nat :=
  (length (output_queue c) + Z.to_nat (timeout_ms / poll_ms) + 2)%nat.

(** [UCIEngine.read_until]; [timeout] is in seconds. *)
Definition read_until (expected : string) (timeout_s : option Z) (c : UCIEngine)
    : option (list string * UCIEngine) :=
  let timeout_s := default (timeout c) timeout_s in
  read_until_loop (read_fuel (timeout_s * 1000) c) expected (now c)
    (timeout_s * 1000) [] c.

(** [UCIEngine.is_ready] *)
Definition is_ready (timeout_s : Z) (c : UCIEngine) : option (bool * UCIEngine) :=
  match send_command "isready" c with
  | Raised _ _ => Some (false, c)
  | Returned c1 =>
      match read_until "readyok" (Some timeout_s) c1 with
      | Some (lines, c2) => Some (existsb (contains "readyok") lines, c2)
      | None => None
      end
  end.

(** The loop of [initialize] over the lines of the handshake. *)
Definition parse_line (c : UCIEngine) (line : string) : UCIEngine :=
  if startswith "id name" line then set_name (strip (drop_chars 8 line)) c
  else if startswith "id author" line then
    set_author (strip (drop_chars 10 line)) c
  else if startswith "option name" line then
    set_options (_parse_option line (options c)) c
  else c.

Definition parse_engine_info (lines : list string) (c : UCIEngine) : UCIEngine :=
  foldl parse_line c lines.

Definition detect_mate_search (c : UCIEngine) : UCIEngine :=
  set_supports_mate_search
    (existsb (fun opt => contains "mate" (lower opt))
       (map fst (map_to_list (options c))))
    c.

(** The [try] block of [initialize]. *)
Definition initialize_body (c : UCIEngine)
    : option (Outcome (bool * UCIEngine)) :=
  match send_command "uci" c with
  | Raised cls msg => Some (Raised cls msg)
  | Returned c1 =>
      match read_until "uciok" (Some 10) c1 with
      | None => None
      | Some (lines, c2) =>
          if negb (existsb (contains "uciok") lines) then
            Some (Returned (false, c2))
          else
            let c3 := detect_mate_search (parse_engine_info lines c2) in
            match is_ready 5 c3 with
            | Some (ready, c4) => Some (Returned (ready, c4))
            | None => None
            end
      end
  end.

(** [UCIEngine.initialize]: the block above under [except Exception]. *)
Definition initialize (c : UCIEngine) : option (Outcome (bool * UCIEngine)) :=
  match initialize_body c with
  | Some (Raised _ _) => Some (Returned (false, c))
  | r => r
  end.







(** *** quit *)


(** *** read_until *)

(** Only the queue and the clock differ between [c] and [c']. *)
Definition reads_from (c c' : UCIEngine) : Prop :=
  c' = set_output_queue (output_queue c') (set_now (now c') c).

Lemma reads_from_refl c : reads_from c c.
Proof. now destruct c. Qed.

Lemma reads_from_trans c1 c2 c3 :
  reads_from c1 c2 -> reads_from c2 c3 -> reads_from c1 c3.
Proof.
  unfold reads_from. intros H12 H23. rewrite H23 at 1. rewrite H12 at 1.
  reflexivity.
Qed.

(** Polling intervals left before the deadline [start_time + timeout_ms]. *)
Definition intervals_left (start_time timeout_ms : Z) (c : UCIEngine) : nat :=
  Z.to_nat ((Z.max 0 (start_time + timeout_ms - now c) + 99) / 100).

Lemma intervals_step r :
  0 < r ->
  (Z.to_nat ((Z.max 0 (r - 100) + 99) / 100)
   < Z.to_nat ((Z.max 0 r + 99) / 100))%nat.
Proof.
  intros H. apply Z2Nat.inj_lt.
  - apply Z.div_pos; lia.
  - apply Z.div_pos; lia.
  - Z.div_mod_to_equations. lia.
Qed.

Lemma intervals_mono r r' :
  r' <= r ->
  (Z.to_nat ((Z.max 0 r' + 99) / 100)
   <= Z.to_nat ((Z.max 0 r + 99) / 100))%nat.
Proof.
  intros H. apply Z2Nat.inj_le.
  - apply Z.div_pos; lia.
  - apply Z.div_pos; lia.
  - Z.div_mod_to_equations. lia.
Qed.

Lemma intervals_fuel limit :
  (Z.to_nat ((Z.max 0 limit + 99) / 100) <= Z.to_nat (limit / 100) + 1)%nat.
Proof.
  destruct (Z.le_gt_cases 0 limit).
  - rewrite Z.max_r by lia. change 1%nat with (Z.to_nat 1).
    rewrite <- Z2Nat.inj_add by (try apply Z.div_pos; lia).
    apply Z2Nat.inj_le; try (Z.div_mod_to_equations; lia).
  - rewrite Z.max_l by lia. change ((0 + 99) / 100) with 0. lia.
Qed.

Lemma queue_get_cases c :
  queue_get c = (None, set_now (now c + 100) c) \/
  exists arrival line rest,
    output_queue c = (arrival, line) :: rest /\ (arrival < now c + 100) /\
    queue_get c =
      (Some line, set_output_queue rest (set_now (Z.max (now c) arrival) c)).
Proof.
  unfold queue_get, poll_ms.
  destruct (output_queue c) as [|[arrival line] rest]; [now left|].
  destruct (Z.ltb_spec arrival (now c + 100)); [right | now left].
  exists arrival, line, rest. repeat split. assumption.
Qed.

Lemma read_until_loop_spec expected start_time timeout_ms fuel :
  forall lines c,
  (length (output_queue c) + intervals_left start_time timeout_ms c < fuel)%nat ->
  exists consumed c',
    read_until_loop fuel expected start_time timeout_ms lines c =
      Some (lines ++ map snd consumed, c') /\
    output_queue c = consumed ++ output_queue c' /\
    reads_from c c' /\
    now c <= now c' /\
    now c' < Z.max (now c + 1) (start_time + timeout_ms + poll_ms).
Proof.
  unfold intervals_left, poll_ms.
  induction fuel as [|fuel IH]; intros lines c Hfuel; [lia|].
  simpl. destruct (Z.ltb_spec (now c - start_time) timeout_ms) as [Hlt|Hge].
  2:{ exists [], c. rewrite app_nil_r. repeat split;
        [apply reads_from_refl | lia | lia]. }
  assert (Hwait :
    exists consumed c',
      read_until_loop fuel expected start_time timeout_ms lines
        (set_now (now c + 100) c) = Some (lines ++ map snd consumed, c') /\
      output_queue c = consumed ++ output_queue c' /\
      reads_from c c' /\ now c <= now c' /\
      now c' < Z.max (now c + 1) (start_time + timeout_ms + 100)).
  { destruct (IH lines (set_now (now c + 100) c)) as (consumed & c' & E & Q & R & T1 & T2).
    { pose proof (intervals_step (start_time + timeout_ms - now c)) as Hs.
      simpl.
      replace (start_time + timeout_ms - (now c + 100))
        with (start_time + timeout_ms - now c - 100) by lia.
      lia. }
    exists consumed, c'. simpl in Q, T1, T2. rewrite E, <- Q.
    repeat split; [| lia | lia].
    eapply reads_from_trans; [|exact R]. unfold reads_from. now destruct c. }
  destruct (queue_get_cases c) as [E0 | (arrival & line & rest & Hq & Harr & E0)];
    rewrite E0; [exact Hwait|].
  set (c1 := set_output_queue rest (set_now (Z.max (now c) arrival) c)).
  assert (R1 : reads_from c c1) by (unfold reads_from; now destruct c).
  destruct (contains expected line).
  - exists [(arrival, line)], c1. rewrite Hq. simpl.
    repeat split; try exact R1; lia.
  - destruct (IH (lines ++ [line]) c1) as (consumed & c' & E & Q & R & T1 & T2).
    { pose proof (intervals_mono (start_time + timeout_ms - now c)
                    (start_time + timeout_ms - Z.max (now c) arrival)) as Hm.
      rewrite Hq in Hfuel. simpl in *. lia. }
    exists ((arrival, line) :: consumed), c'. simpl in *.
    rewrite E, <- app_assoc, Hq, Q. repeat split; [| lia | lia].
    eapply reads_from_trans; eassumption.
Qed.

(** [read_until] returns: it hands back lines of the queue in their order
    and is over before the deadline plus one polling interval. *)
Lemma read_until_spec expected timeout_s c :
  let limit := default (timeout c) timeout_s * 1000 in
  exists consumed c',
    read_until expected timeout_s c = Some (map snd consumed, c') /\
    output_queue c = consumed ++ output_queue c' /\
    reads_from c c' /\
    now c <= now c' /\
    now c' < Z.max (now c + 1) (now c + limit + poll_ms).
Proof.
  intros limit. unfold read_until. fold limit.
  apply (read_until_loop_spec expected (now c) limit _ [] c).
  unfold read_fuel, intervals_left, poll_ms.
  pose proof (intervals_fuel limit) as Hf.
  replace (now c + limit - now c) with limit by lia. lia.
Qed.

(** *** initialize *)

(** No line of [q] contains [word]. *)
Definition silent_about (word : string) (q : list (Z * string)) : Prop :=
  Forall (fun tl => contains word (snd tl) = false) q.

(** The engine never emits a line containing [word]: none is under way and
    no command makes it print one. *)
Definition never_says (word : string) (c : UCIEngine) : Prop :=
  silent_about word (output_queue c) /\
  forall p cmd, process c = Some p -> silent_about word (respond p cmd).

Lemma existsb_silent word consumed :
  silent_about word consumed ->
  existsb (contains word) (map snd consumed) = false.
Proof.
  induction 1 as [|tl q Htl _ IH]; [reflexivity|].
  simpl. now rewrite Htl, IH.
Qed.

Lemma send_command_never_says word command c c1 :
  send_command command c = Returned c1 ->
  never_says word c ->
  never_says word c1 /\ now c1 = now c /\ process c1 = process c.
Proof.
  unfold send_command, never_says. intros Hs [Hq Hp].
  destruct (process c) as [p|] eqn:Hproc; [|discriminate].
  destruct (alive p && stdin_ok p); [|discriminate].
  inversion Hs; subst c1; clear Hs. simpl. rewrite Hproc.
  repeat split; [|exact Hp].
  apply Forall_app; split; [exact Hq|].
  specialize (Hp p command eq_refl).
  unfold silent_about in *. rewrite Forall_map. simpl. exact Hp.
Qed.

Lemma read_until_never_says word expected timeout_s c lines c' :
  read_until expected timeout_s c = Some (lines, c') ->
  never_says word c ->
  existsb (contains word) lines = false /\ never_says word c' /\
  process c' = process c.
Proof.
  intros Hr [Hq Hp].
  destruct (read_until_spec expected timeout_s c)
    as (consumed & c2 & E & Q & R & _).
  rewrite E in Hr. inversion Hr; subst lines c'; clear Hr.
  unfold silent_about in Hq. rewrite Q in Hq. apply Forall_app in Hq as [Hc Hrest].
  assert (Hproc : process c2 = process c) by (rewrite R; reflexivity).
  split; [now apply existsb_silent|]. split; [|exact Hproc].
  split; [exact Hrest|]. intros p cmd. rewrite Hproc. apply Hp.
Qed.

Lemma parse_engine_info_frame lines : forall c,
  process (parse_engine_info lines c) = process c /\
  output_queue (parse_engine_info lines c) = output_queue c /\
  now (parse_engine_info lines c) = now c.
Proof.
  unfold parse_engine_info.
  induction lines as [|line lines IH]; intros c; [repeat split|].
  simpl. destruct (IH (parse_line c line)) as (H1 & H2 & H3).
  rewrite H1, H2, H3. unfold parse_line.
  destruct (startswith "id name" line); [repeat split|].
  destruct (startswith "id author" line); [repeat split|].
  destruct (startswith "option name" line); repeat split.
Qed.

Lemma handshake_never_says word lines c :
  never_says word c ->
  never_says word (detect_mate_search (parse_engine_info lines c)).
Proof.
  intros [Hq Hp]. destruct (parse_engine_info_frame lines c) as (H1 & H2 & _).
  unfold never_says, detect_mate_search. simpl. rewrite H1, H2. now split.
Qed.

Lemma is_ready_returns timeout_s c :
  exists ready c', is_ready timeout_s c = Some (ready, c').
Proof.
  unfold is_ready. destruct (send_command "isready" c) as [c1|]; [|eauto].
  destruct (read_until_spec "readyok" (Some timeout_s) c1)
    as (consumed & c2 & E & _).
  rewrite E. eauto.
Qed.

Lemma is_ready_never_says timeout_s c :
  never_says "readyok" c -> exists c', is_ready timeout_s c = Some (false, c').
Proof.
  intros Hn. unfold is_ready.
  destruct (send_command "isready" c) as [c1|] eqn:Hs; [|eauto].
  destruct (send_command_never_says _ _ _ _ Hs Hn) as (Hn1 & _).
  destruct (read_until_spec "readyok" (Some timeout_s) c1)
    as (consumed & c2 & E & _).
  rewrite E.
  destruct (read_until_never_says _ _ _ _ _ _ E Hn1) as (Hl & _).
  rewrite Hl. eauto.
Qed.

(** C6: [initialize] always returns a boolean and never raises.  For an
    engine that never emits a line containing [uciok] it returns false, less
    than ten seconds plus one polling interval after the call; for an engine
    that never answers the readiness probe with [readyok] it returns false
    as well. *)
Theorem initialize_returns_false (c : UCIEngine) :
  (exists ready c', initialize c = Some (Returned (ready, c'))) /\
  (never_says "uciok" c ->
   exists c', initialize c = Some (Returned (false, c')) /\
              now c <= now c' /\ now c' < now c + 10 * 1000 + poll_ms) /\
  (never_says "readyok" c ->
   exists c', initialize c = Some (Returned (false, c'))).
Proof.
  unfold initialize, initialize_body.
  destruct (send_command "uci" c) as [c1|cls msg] eqn:Hs.
  2:{ split; [eauto|]. split; intros _; exists c; repeat split;
        unfold poll_ms; lia. }
  destruct (read_until_spec "uciok" (Some 10) c1)
    as (consumed & c2 & E & Q & R & T1 & T2).
  rewrite E. simpl in T2.
  split; [|split].
  - destruct (negb _); [eauto|].
    destruct (is_ready_returns 5
                (detect_mate_search (parse_engine_info (map snd consumed) c2)))
      as (ready & c4 & E4).
    rewrite E4. eauto.
  - intros Hn.
    destruct (send_command_never_says _ _ _ _ Hs Hn) as (Hn1 & Hnow & _).
    destruct (read_until_never_says _ _ _ _ _ _ E Hn1) as (Hl & _).
    rewrite Hl. simpl. exists c2. unfold poll_ms in *. repeat split; lia.
  - intros Hn.
    destruct (negb _); [eauto|].
    destruct (send_command_never_says _ _ _ _ Hs Hn) as (Hn1 & _).
    destruct (read_until_never_says _ _ _ _ _ _ E Hn1) as (_ & Hn2 & _).
    destruct (is_ready_never_says 5 _
                (handshake_never_says "readyok" (map snd consumed) c2 Hn2))
      as (c4 & E4).
    rewrite E4. eauto.
Qed.

(** *** The options a handshake records *)

(** The option name a handshake line declares, if it is an option line the
    pattern matches. *)
Definition declares (line : string) : option string :=
  if startswith "option name" line then
    (fun g => strip (fst g)) <$> option_regex line
  else None.

(** The effect of one handshake line on the options mapping. *)
Definition record_option (o : gmap string (gmap string string)) (line : string)
    : gmap string (gmap string string) :=
  if startswith "option name" line then _parse_option line o else o.

Lemma parse_line_options c line :
  options (parse_line c line) = record_option (options c) line.
Proof.
  unfold parse_line, record_option.
  destruct line as [|a l]; [reflexivity|].
  destruct (Ascii.eqb_spec "i" a) as [<-|Hi].
  - destruct (startswith "id name" _); [reflexivity|].
    destruct (startswith "id author" _); reflexivity.
  - rewrite !startswith_head_ne by assumption. now destruct (startswith "option name" _).
Qed.

Lemma parse_engine_info_options lines : forall c,
  options (parse_engine_info lines c) = foldl record_option (options c) lines.
Proof.
  unfold parse_engine_info.
  induction lines as [|line lines IH]; intros c; [reflexivity|].
  simpl. now rewrite IH, parse_line_options.
Qed.

Lemma record_option_other o line name :
  declares line <> Some name -> record_option o line !! name = o !! name.
Proof.
  unfold declares, record_option.
  destruct (startswith "option name" line); [|reflexivity].
  destruct (option_regex line) as [[g1 g2]|] eqn:Hm.
  - intros Hne. destruct (_parse_option_matched line g1 g2 o Hm) as (info & E & _).
    rewrite E. apply lookup_insert_ne. intros Heq. apply Hne. simpl. now f_equal.
  - intros _. now rewrite _parse_option_unmatched.
Qed.

Lemma record_options_other post : forall o name,
  Forall (fun l => declares l <> Some name) post ->
  foldl record_option o post !! name = o !! name.
Proof.
  induction post as [|l post IH]; intros o name H; [reflexivity|].
  inversion H; subst. simpl. rewrite IH by assumption.
  now apply record_option_other.
Qed.

Lemma send_command_options command c c1 :
  send_command command c = Returned c1 -> options c1 = options c.
Proof.
  unfold send_command. destruct (process c) as [p|]; [|discriminate].
  destruct (alive p && stdin_ok p); [|discriminate].
  intros H; inversion H; reflexivity.
Qed.

Lemma is_ready_options timeout_s c ready c' :
  is_ready timeout_s c = Some (ready, c') -> options c' = options c.
Proof.
  unfold is_ready.
  destruct (send_command "isready" c) as [c1|] eqn:Hs.
  - destruct (read_until_spec "readyok" (Some timeout_s) c1)
      as (consumed & c2 & E & _ & R & _).
    rewrite E. intros H; inversion H; subst.
    rewrite R. simpl. now apply send_command_options in Hs.
  - intros H; inversion H; reflexivity.
Qed.

(** C5, as the code has it: when the handshake is answered with [uciok],
    every line read that starts with [option name] and goes on is entered in
    the options mapping under the name the pattern isolates.  The entry of
    the last line that declares a name holds that line as "raw" and, as
    "default", the word that follows the first [default] in the text after
    the type keyword, if there is one.  No entry holds "min" or "max". *)
Theorem initialize_records_options (c c1 c2 : UCIEngine) (lines : list string) :
  send_command "uci" c = Returned c1 ->
  read_until "uciok" (Some 10) c1 = Some (lines, c2) ->
  existsb (contains "uciok") lines = true ->
  exists ready c',
    initialize c = Some (Returned (ready, c')) /\
    forall pre line post a tail,
      lines = pre ++ line :: post ->
      strip_prefix "option name " line = Some (String a tail) ->
      Forall (fun l => declares l <> Some (strip (fst (split_name a tail)))) post ->
      exists info : gmap string string,
        options c' !! strip (fst (split_name a tail)) = Some info /\
        info !! "raw" = Some line /\
        info !! "default" =
          search_after "default " non_space (default "" (snd (split_name a tail))) /\
        info !! "min" = None /\ info !! "max" = None.
Proof.
  intros Hs Hr Hok. unfold initialize, initialize_body.
  rewrite Hs, Hr, Hok. cbn [negb].
  set (c3 := detect_mate_search (parse_engine_info lines c2)).
  destruct (is_ready_returns 5 c3) as (ready & c4 & E4). rewrite E4.
  exists ready, c4. split; [reflexivity|].
  intros pre line post a tail Hlines Hpre Hpost.
  assert (Hopts : options c4 = foldl record_option (options c2) lines).
  { rewrite (is_ready_options _ _ _ _ E4). subst c3. simpl.
    apply parse_engine_info_options. }
  rewrite Hopts, Hlines, foldl_app. simpl.
  rewrite record_options_other by assumption.
  assert (Hm : option_regex line = Some (split_name a tail))
    by (unfold option_regex; now rewrite Hpre).
  assert (Hstart : startswith "option name" line = true).
  { apply (startswith_shorter "option name" " ").
    change (startswith "option name " line = true).
    unfold startswith. now rewrite Hpre. }
  assert (Hrec : forall o, record_option o line = _parse_option line o)
    by (intros o; unfold record_option; now rewrite Hstart).
  rewrite Hrec.
  destruct (split_name a tail) as [g1 g2] eqn:Hsplit.
  destruct (_parse_option_matched line g1 g2 (foldl record_option (options c2) pre) Hm)
    as (info & E & Hraw & Hdef & Hmin & Hmax).
  exists info. rewrite E, lookup_insert_eq. simpl. now repeat split.
Qed.

(** *** A small engine to evaluate the client on *)

Definition demo_process : Process :=
  mkProcess 4242 true true true
    (fun command =>
       if String.eqb command "uci" then
         [(5, "id name Demo"); (5, "id author Nobody"); (6, hash_line);
          (7, "uciok")]
       else if String.eqb command "isready" then [(1, "readyok")]
       else []).

Definition demo_client : UCIEngine :=
  mkEngine "Engines/demo.exe" 30 (Some demo_process) [] true
    "Unknown" "Unknown" ∅ false 0.

(** An engine that answers [uci] with its name and nothing else. *)
Definition mute_process : Process :=
  mkProcess 4243 true true false
    (fun command =>
       if String.eqb command "uci" then [(5, "id name Mute")] else []).

Definition mute_client : UCIEngine :=
  mkEngine "Engines/mute.exe" 30 (Some mute_process) [] true
    "Unknown" "Unknown" ∅ false 0.

(** C5, the claim as worded fails: the line
    [option name Hash type spin default 16 min 1 max 65536] carries a type,
    a minimum and a maximum, and after the handshake the entry for [Hash]
    holds the raw line and the default only. *)
Lemma hash_option_loses_type_min_max :
  exists c',
    initialize demo_client = Some (Returned (true, c')) /\
    options c' !! "Hash" =
      Some (<["default" := "16"]> {[ "raw" := hash_line ]}) /\
    options c' !! "Hash" ≫= (fun info => info !! "type") = None /\
    options c' !! "Hash" ≫= (fun info => info !! "min") = None /\
    options c' !! "Hash" ≫= (fun info => info !! "max") = None /\
    options c' !! "Hash" ≫= (fun info => info !! "min") <> Some "1" /\
    options c' !! "Hash" ≫= (fun info => info !! "max") <> Some "65536".
Proof.
  eexists. split; [vm_compute; reflexivity|].
  vm_compute. repeat split; discriminate.
Qed.

(** The handshake of the demo engine: what its [Hash] line leaves behind. *)
Lemma initialize_records_options_witness :
  exists ready c' info,
    initialize demo_client = Some (Returned (ready, c')) /\
    options c' !! "Hash" = Some info /\
    info !! "raw" = Some hash_line /\ info !! "default" = Some "16" /\
    info !! "min" = None /\ info !! "max" = None.
Proof.
  destruct (send_command "uci" demo_client) as [c1|] eqn:Hs;
    [|vm_compute in Hs; discriminate].
  destruct (read_until "uciok" (Some 10) c1) as [[lines c2]|] eqn:Hr;
    [|vm_compute in Hs; inversion Hs; subst c1; vm_compute in Hr; discriminate].
  assert (Hlines : lines =
    ["id name Demo"; "id author Nobody"; hash_line; "uciok"]).
  { vm_compute in Hs. inversion Hs; subst c1. vm_compute in Hr.
    inversion Hr. reflexivity. }
  destruct (initialize_records_options demo_client c1 c2 lines Hs Hr)
    as (ready & c' & Hinit & Hopts).
  { rewrite Hlines. reflexivity. }
  destruct (Hopts ["id name Demo"; "id author Nobody"] hash_line ["uciok"]
              "H"%char "ash type spin default 16 min 1 max 65536")
    as (info & Hi & Hraw & Hdef & Hmin & Hmax).
  - exact Hlines.
  - reflexivity.
  - repeat constructor. vm_compute. discriminate.
  - exists ready, c', info. split; [exact Hinit|]. split; [exact Hi|].
    split; [exact Hraw|]. split; [exact Hdef|]. split; assumption.
Defined.

(** The handshake of the mute engine. *)
Lemma initialize_returns_false_witness :
  exists c',
    initialize mute_client = Some (Returned (false, c')) /\
    now mute_client <= now c' /\ now c' < now mute_client + 10 * 1000 + poll_ms.
Proof.
  destruct (initialize_returns_false mute_client) as (_ & Huci & _).
  apply Huci. split.
  - constructor.
  - intros p cmd Hp. inversion Hp; subst p. unfold silent_about. simpl.
    destruct (String.eqb cmd "uci"); repeat constructor.
Defined.

End UCI.

(** ** backend/match.py: Match *)

Module Match.

(** [chess.WHITE] and [chess.BLACK] *)
Inductive Color := WHITE | BLACK.

Definition opposite (c : Color) : Color :=
  match c with WHITE => BLACK | BLACK => WHITE end.

Definition color_name (c : Color) : string :=
  match c with WHITE => "white" | BLACK => "black" end.

(** What the match uses of the rules library ([chess.Board], [chess.Move]).
    [from_uci] is [None] where [chess.Move.from_uci] raises; [legal b m] is
    [m in b.legal_moves]; a move that is made passes the turn. *)
Class Rules (Board Move : Type) := {
  start_board : Board;
  from_uci : string -> option Move;
  uci : Move -> string;
  legal : Board -> Move -> bool;
  push : Board -> Move -> Board;
  turn : Board -> Color;
  is_game_over : Board -> bool;
  is_checkmate : Board -> bool;
  is_stalemate : Board -> bool;
  is_insufficient_material : Board -> bool;
  is_fifty_moves : Board -> bool;
  is_repetition : Board -> bool;
  push_turn : forall b m, turn (push b m) = opposite (turn b)
}.

Record Match := mkMatch {
  white_engine_path : string;
  black_engine_path : string;
  time_control : Z;
  increment : Z;
  opening_moves : list string;
  max_moves : Z
}.

(** The dictionary [go] returns, as far as the match reads it: the best
    move, and the "nodes" entry of each info record. *)
Record MoveResult := mkMove {
  bestmove : option string;
  info : list (option Z)
}.

(** One engine as the match meets it: whether its file exists, what
    spawning it does, what [initialize] answers, whether [new_game] raises,
    and, for a move list, the clocks and the increment, what [set_position]
    followed by [go] yields together with the milliseconds measured around
    the [go]. *)
Record Engine := mkEngineEnv {
  path_exists : bool;
  spawn : Outcome UCI.Process;
  initialize_ok : bool;
  new_game : Outcome unit;
  think : list string -> Z -> Z -> Z -> Outcome (MoveResult * Z)
}.

Section Play.

Context {Board Move : Type} `{Rules Board Move}.

(** The text [_generate_pgn] produces from the moves, the winner and the
    reason. *)
Variable generate_pgn : list string -> option string -> string -> string.

Variable m : Match.
Variable white_engine black_engine : Engine.

(** The fields of the [Match] object that change during [play]. *)
Record State := mkState {
  board : Board;
  move_stack : list Move;
  time_white : Z;
  time_black : Z;
  nodes_white : Z;
  nodes_black : Z;
  move_count : Z
}.

Definition engine_of (c : Color) : Engine :=
  match c with WHITE => white_engine | BLACK => black_engine end.

Definition clock (c : Color) (s : State) : Z :=
  match c with WHITE => time_white s | BLACK => time_black s end.

(** The start of [play]: both clients are constructed, started and
    initialized, then told about the new game. *)
Definition startup : Outcome unit :=
  match UCI.__init__ (path_exists white_engine) 0 (white_engine_path m) 30 with
  | Raised cls msg => Raised cls msg
  | Returned we =>
  match UCI.__init__ (path_exists black_engine) 0 (black_engine_path m) 30 with
  | Raised cls msg => Raised cls msg
  | Returned be =>
  match UCI.start (spawn white_engine) we with
  | Raised cls msg => Raised cls msg
  | Returned (false, _) => Raised "RuntimeError" "Failed to start engines"
  | Returned (true, _) =>
  match UCI.start (spawn black_engine) be with
  | Raised cls msg => Raised cls msg
  | Returned (false, _) => Raised "RuntimeError" "Failed to start engines"
  | Returned (true, _) =>
      if negb (initialize_ok white_engine) || negb (initialize_ok black_engine)
      then Raised "RuntimeError" "Failed to initialize engines"
      else
        match new_game white_engine with
        | Raised cls msg => Raised cls msg
        | Returned _ => new_game black_engine
        end
  end end end end.

(** The loop over [self.opening_moves]: it stops at the first move that
    does not parse or is not legal. *)
Fixpoint play_opening (moves : list string) (b : Board) (stack : list Move)
    : Board * list Move :=
  match moves with
  | [] => (b, stack)
  | move_uci :: rest =>
      match from_uci move_uci with
      | Some move =>
          if legal b move then play_opening rest (push b move) (stack ++ [move])
          else (b, stack)
      | None => (b, stack)
      end
  end.

Definition start_state : State :=
  let '(b, stack) := play_opening (opening_moves m) start_board [] in
  mkState b stack (time_control m) (time_control m) 0 0 0.

(** What one pass through the body of the game loop does. *)
Inductive Ply :=
  | Crashed (cls msg : string)          (* an exception left the loop *)
  | Disqualified (winner reason : string)  (* [break] before any move is made *)
  | Moved (s : State) (forfeit : option string).
                                        (* the move is made; [forfeit] names
                                           the winner when a clock is used up *)

Definition last_nodes (infos : list (option Z)) : option Z :=
  match last infos with
  | Some nodes => Some (default 0 nodes)
  | None => None
  end.

Definition ply (s : State) : Ply :=
  let mover := turn (board s) in
  let move_list := map uci (move_stack s) in
  match think (engine_of mover) move_list (time_white s) (time_black s)
          (increment m) with
  | Raised cls msg => Crashed cls msg
  | Returned (move_result, elapsed) =>
      match bestmove move_result with
      | None | Some EmptyString =>
          Disqualified (color_name (opposite mover)) "Engine failure"
      | Some token =>
          match from_uci token with
          | None => Disqualified (color_name (opposite mover)) "Illegal move"
          | Some move =>
              if negb (legal (board s) move) then
                Disqualified (color_name (opposite mover)) "Illegal move"
              else
                let b := push (board s) move in
                let white_moved :=
                  match turn b with BLACK => true | WHITE => false end in
                let tw := if white_moved
                          then Z.max 0 (time_white s - elapsed + increment m)
                          else time_white s in
                let tb := if white_moved then time_black s
                          else Z.max 0 (time_black s - elapsed + increment m) in
                let nodes := default 0 (last_nodes (info move_result)) in
                let nw := if white_moved then nodes_white s + nodes
                          else nodes_white s in
                let nb := if white_moved then nodes_black s
                          else nodes_black s + nodes in
                let s' := mkState b (move_stack s ++ [move]) tw tb nw nb
                            (move_count s + 1) in
                Moved s'
                  (if (tw <=? 0)%Z then Some "black"
                   else if (tb <=? 0)%Z then Some "white"
                   else None)
          end
      end
  end.

(** How the game loop ends. *)
Inductive LoopEnd :=
  | LoopCrashed (cls msg : string)
  | LoopBroken (s : State) (winner reason : string)
  | LoopDone (s : State).

(** [while not self.board.is_game_over() and move_count < self.max_moves];
    [remaining] is [max_moves - move_count]. *)
Fixpoint play_loop (remaining : nat) (s : State) : LoopEnd :=
  match remaining with
  | O => LoopDone s
  | S remaining =>
      if is_game_over (board s) then LoopDone s
      else
        match ply s with
        | Crashed cls msg => LoopCrashed cls msg
        | Disqualified winner reason => LoopBroken s winner reason
        | Moved s' (Some winner) => LoopBroken s' winner "Time forfeit"
        | Moved s' None => play_loop remaining s'
        end
  end.

(** The result when the loop ended without naming a winner. *)
Definition adjudicate (s : State) : string * string :=
  if is_checkmate (board s) then
    (match turn (board s) with BLACK => "white" | WHITE => "black" end,
     "Checkmate")
  else if is_stalemate (board s) then ("draw", "Stalemate")
  else if is_insufficient_material (board s) then
    ("draw", "Insufficient material")
  else if is_fifty_moves (board s) then ("draw", "Fifty-move rule")
  else if is_repetition (board s) then ("draw", "Threefold repetition")
  else if (max_moves m <=? move_count s)%Z then
    ("draw", "Maximum moves (" +:+ pretty (max_moves m) +:+ ") reached")
  else ("draw", "Game over").

Definition finish (s : State) (winner reason : string) : MatchResult :=
  let moves := map uci (move_stack s) in
  mkResult (Some winner) reason moves
    (generate_pgn moves (Some winner) reason)
    (time_white s) (time_black s) (nodes_white s) (nodes_black s).

(** The handler of [play]: the fields other than winner and reason are
    those of a fresh [MatchResult]. *)
Definition error_result (msg : string) : MatchResult :=
  mkResult (Some "error") msg [] "" 0 0 0 0.

(** [Match.play].  The clients are quit in the [finally] clause, which
    does not raise and does not touch the result. *)
Definition play : MatchResult :=
  match startup with
  | Raised _ msg => error_result msg
  | Returned _ =>
      match play_loop (Z.to_nat (max_moves m)) start_state with
      | LoopCrashed _ msg => error_result msg
      | LoopBroken s winner reason => finish s winner reason
      | LoopDone s =>
          let '(winner, reason) := adjudicate s in finish s winner reason
      end
  end.

(** *** The game loop, pass by pass *)


(** What a pass that makes a move has read and written. *)
Lemma ply_moved s s' forfeit :
  ply s = Moved s' forfeit ->
  exists move_result elapsed move,
    think (engine_of (turn (board s))) (map uci (move_stack s))
      (time_white s) (time_black s) (increment m)
      = Returned (move_result, elapsed) /\
    legal (board s) move = true /\
    board s' = push (board s) move /\
    move_stack s' = move_stack s ++ [move] /\
    move_count s' = move_count s + 1 /\
    clock (turn (board s)) s'
      = Z.max 0 (clock (turn (board s)) s - elapsed + increment m) /\
    clock (opposite (turn (board s))) s' = clock (opposite (turn (board s))) s /\
    forfeit = (if time_white s' <=? 0 then Some "black"
               else if time_black s' <=? 0 then Some "white" else None).
Proof.
  unfold ply.
  destruct (think _ _ _ _ _) as [[move_result elapsed]|]; [|discriminate].
  destruct (bestmove move_result) as [[|a token]|]; try discriminate.
  destruct (from_uci (String a token)) as [move|]; [|discriminate].
  destruct (legal (board s) move) eqn:Hlegal; [|discriminate].
  simpl. rewrite push_turn.
  intros Hm. exists move_result, elapsed, move.
  destruct (turn (board s)); simpl in Hm; inversion Hm; subst; simpl;
    repeat split; exact Hlegal.
Qed.



(** C7: when the engine to move answers [go] with a token that does not
    parse as a move, or with a move that is not legal in the position, the
    loop stops there: the opponent of the mover wins and the reason is
    "Illegal move".  When this happens on the first [go] of the match the
    result of [play] says so, and holds the moves of the opening prefix
    only. *)
Theorem illegal_move_loses (s : State) (move_result : MoveResult)
    (elapsed : Z) (token : string) (remaining : nat) :
  is_game_over (board s) = false ->
  think (engine_of (turn (board s))) (map uci (move_stack s))
    (time_white s) (time_black s) (increment m)
    = Returned (move_result, elapsed) ->
  bestmove move_result = Some token -> token <> EmptyString ->
  (from_uci token = None \/
   exists move, from_uci token = Some move /\ legal (board s) move = false) ->
  let opponent := color_name (opposite (turn (board s))) in
  play_loop (S remaining) s = LoopBroken s opponent "Illegal move" /\
  (startup = Returned tt -> s = start_state -> 0 < max_moves m ->
   winner play = Some opponent /\ reason play = "Illegal move" /\
   moves play = map uci (move_stack start_state)).
Proof.
  intros Hover Hthink Hbest Htoken Hbad opponent.
  assert (Hply : ply s = Disqualified opponent "Illegal move").
  { unfold ply. rewrite Hthink, Hbest.
    destruct token as [|a token]; [congruence|].
    destruct Hbad as [Hnone | (move & Hsome & Hill)].
    - now rewrite Hnone.
    - now rewrite Hsome, Hill. }
  assert (Hloop : forall r, play_loop (S r) s = LoopBroken s opponent "Illegal move").
  { intros r. simpl. now rewrite Hover, Hply. }
  split; [apply Hloop|].
  intros Hstart Hs Hmax. unfold play. rewrite Hstart.
  destruct (Z.to_nat (max_moves m)) as [|r] eqn:Hr; [lia|].
  rewrite <- Hs, Hloop. simpl. now rewrite Hs.
Qed.

(** C4, as the code has it: for a path that does not exist the constructor
    of the client raises [FileNotFoundError], so [start] is not reached;
    [start] itself never raises, and when the executable cannot be spawned
    it returns false and leaves the client as it was.  A match one of whose
    engines is missing or cannot be spawned ends in its handler, with
    winner "error" and no move played. *)
Theorem missing_or_unspawnable_engine (now : Z) (engine_path : string)
    (timeout : Z) (spawned : Outcome UCI.Process) (c : UCI.UCIEngine) :
  UCI.__init__ false now engine_path timeout
    = Raised "FileNotFoundError" ("Engine not found: " +:+ engine_path) /\
  raises (UCI.start spawned c) = false /\
  (raises spawned = true -> UCI.start spawned c = Returned (false, c)) /\
  (path_exists white_engine = false \/ path_exists black_engine = false \/
   raises (spawn white_engine) = true \/ raises (spawn black_engine) = true ->
   exists msg, play = error_result msg /\ raises startup = true).
Proof.
  split; [reflexivity|]. split; [now destruct spawned|].
  split; [now destruct spawned|].
  intros Hbad. unfold play.
  assert (Hs : raises startup = true).
  { unfold startup, UCI.__init__, UCI.start.
    destruct (path_exists white_engine); [|reflexivity].
    destruct (path_exists black_engine); [|reflexivity].
    destruct (spawn white_engine); [|reflexivity].
    destruct (spawn black_engine); [|reflexivity].
    simpl in Hbad. intuition discriminate. }
  destruct startup as [u|cls msg]; [discriminate|].
  exists msg. now split.
Qed.

End Play.

(** *** A miniature game to evaluate the match on *)

(** The only game this rule book knows: the four moves below, in order.  A
    board is the number of moves made.  As in [chess.Move.from_uci], a token
    parses when it has four characters and names two different squares. *)
Definition book_line : list string := ["e2e4"; "e7e5"; "g1f3"; "b8c6"].

Definition line_turn (b : nat) : Color := if Nat.even b then WHITE else BLACK.

Lemma line_turn_push (b : nat) (mv : string) :
  line_turn (S b) = opposite (line_turn b).
Proof.
  unfold line_turn. rewrite Nat.even_succ, <- Nat.negb_even.
  now destruct (Nat.even b).
Qed.

Definition line_from_uci (token : string) : option string :=
  if negb (String.length token =? 4)%nat then None
  else if String.eqb (substring 0 2 token) (substring 2 2 token) then None
  else Some token.

#[export] Instance line_rules : Rules nat string := {|
  start_board := 0%nat;
  from_uci := line_from_uci;
  uci := fun mv => mv;
  legal := fun b mv => bool_decide (book_line !! b = Some mv);
  push := fun b _ => S b;
  turn := line_turn;
  is_game_over := fun b => (4 <=? b)%nat;
  is_checkmate := fun _ => false;
  is_stalemate := fun b => (4 <=? b)%nat;
  is_insufficient_material := fun _ => false;
  is_fifty_moves := fun _ => false;
  is_repetition := fun _ => false;
  push_turn := line_turn_push
|}.

Definition no_pgn (_ : list string) (_ : option string) (_ : string) : string :=
  "".

(** An engine that plays the line, a quarter of a second per move. *)
Definition book_engine : Engine :=
  mkEngineEnv true (Returned UCI.demo_process) true (Returned tt)
    (fun moves _ _ _ =>
       Returned (mkMove (book_line !! length moves) [Some 100; Some 2500], 250)).

(** An engine that thinks longer than it has. *)
Definition slow_engine : Engine :=
  mkEngineEnv true (Returned UCI.demo_process) true (Returned tt)
    (fun moves _ _ _ =>
       Returned (mkMove (book_line !! length moves) [Some 100], 61000)).

(** An engine that answers every [go] with [a1a1]. *)
Definition a1a1_engine : Engine :=
  mkEngineEnv true (Returned UCI.demo_process) true (Returned tt)
    (fun _ _ _ _ => Returned (mkMove (Some "a1a1") [], 10)).

(** An engine whose executable is not there. *)
Definition missing_engine : Engine :=
  mkEngineEnv false (Raised "FileNotFoundError" "No such file") false
    (Raised "RuntimeError" "Engine not started")
    (fun _ _ _ _ => Raised "RuntimeError" "Engine not started").

Definition minute_match : Match :=
  mkMatch "Engines/white.exe" "Engines/black.exe" 60000 0 [] 200.

Example book_game :
  play no_pgn minute_match book_engine book_engine =
    mkResult (Some "draw") "Stalemate" book_line "" 59500 59500 5000 5000.
Proof. vm_compute. reflexivity. Qed.

Example flag_fall :
  play no_pgn minute_match slow_engine book_engine =
    mkResult (Some "black") "Time forfeit" ["e2e4"] "" 0 60000 100 0.
Proof. vm_compute. reflexivity. Qed.


(** White answers its first [go] with [a1a1]. *)
Lemma illegal_move_loses_witness :
  winner (play no_pgn minute_match a1a1_engine book_engine) = Some "black" /\
  reason (play no_pgn minute_match a1a1_engine book_engine) = "Illegal move" /\
  moves (play no_pgn minute_match a1a1_engine book_engine) = [].
Proof.
  destruct (illegal_move_loses no_pgn minute_match a1a1_engine book_engine
              (start_state minute_match) (mkMove (Some "a1a1") []) 10 "a1a1"
              0%nat) as [_ Hplay].
  - reflexivity.
  - reflexivity.
  - reflexivity.
  - discriminate.
  - left. reflexivity.
  - apply Hplay; [reflexivity | reflexivity | simpl; lia].
Defined.

(** C4, the claim as worded fails: for an executable that exists and cannot
    be spawned [start] returns false and raises nothing; for a missing one
    the exception is [FileNotFoundError], raised by the constructor. *)
Lemma start_returns_false_not_startup_error :
  let c := UCI.mkEngine "Engines/broken.exe" 30 None [] false
             "Unknown" "Unknown" ∅ false 0 in
  let denied : Outcome UCI.Process :=
    Raised "PermissionError" "Permission denied" in
  UCI.__init__ true 0 "Engines/broken.exe" 30 = Returned c /\
  UCI.start denied c = Returned (false, c) /\
  raises (UCI.start denied c) = false /\
  UCI.start denied c <> Raised "StartupError" "Permission denied" /\
  UCI.__init__ false 0 "Engines/missing.exe" 30
    = Raised "FileNotFoundError" "Engine not found: Engines/missing.exe".
Proof. repeat split. discriminate. Qed.

(** White's executable is missing. *)
Lemma missing_or_unspawnable_engine_witness :
  exists msg,
    play no_pgn minute_match missing_engine book_engine = error_result msg /\
    raises (startup minute_match missing_engine book_engine) = true.
Proof.
  destruct (missing_or_unspawnable_engine no_pgn minute_match
              missing_engine book_engine 0 "Engines/white.exe" 30
              (spawn missing_engine) UCI.demo_client)
    as (_ & _ & _ & Hplay).
  apply Hplay. left. reflexivity.
Defined.

Example missing_engine_game :
  play no_pgn minute_match missing_engine book_engine =
    mkResult (Some "error") "Engine not found: Engines/white.exe"
      [] "" 0 0 0 0.
Proof. vm_compute. reflexivity. Qed.

End Match.

(** * Further properties of the code *)

(** ** TournamentStats: the tallies *)

Module StatsFacts.

(** The three results [add_result] knows. *)
Definition known_result (c : ResultCall) : Prop :=
  call_result c = "win" \/ call_result c = "loss" \/ call_result c = "draw".

(** The counters of an accumulator add up. *)
Definition tallies_consistent (s : TournamentStats) : Prop :=
  games_played s = wins s + losses s + draws s /\
  wins s = wins_as_white s + wins_as_black s /\
  0 <= wins_as_white s /\ 0 <= wins_as_black s /\
  0 <= losses s /\ 0 <= draws s.

Definition sum_nodes (cs : list ResultCall) : Z :=
  fold_right (fun c acc => call_nodes c + acc) 0 cs.

Lemma new_stats_tallies name : tallies_consistent (new_stats name).
Proof. unfold tallies_consistent. simpl. lia. Qed.

Lemma add_result_tallies result color nodes s :
  result = "win" \/ result = "loss" \/ result = "draw" ->
  tallies_consistent s -> tallies_consistent (add_result result color nodes s).
Proof.
  unfold tallies_consistent, add_result.
  intros [-> | [-> | ->]] H; simpl; [destruct (String.eqb color "white")|..];
    simpl; lia.
Qed.

Lemma add_result_counts result color nodes s :
  games_played (add_result result color nodes s) = games_played s + 1 /\
  total_nodes (add_result result color nodes s) = total_nodes s + nodes /\
  engine_name (add_result result color nodes s) = engine_name s.
Proof.
  unfold add_result.
  destruct (String.eqb result "win");
    [destruct (String.eqb color "white"); repeat split|].
  destruct (String.eqb result "loss"); [repeat split|].
  destruct (String.eqb result "draw"); repeat split.
Qed.

Lemma after_calls_counts cs : forall s,
  games_played (after_calls s cs) = games_played s + Z.of_nat (length cs) /\
  total_nodes (after_calls s cs) = total_nodes s + sum_nodes cs.
Proof.
  induction cs as [|c cs IH]; intros s; simpl; [lia|].
  destruct (IH (apply_call s c)) as [Hg Hn].
  destruct (add_result_counts (call_result c) (call_color c) (call_nodes c) s)
    as (Hg1 & Hn1 & _).
  unfold after_calls in *. simpl. unfold apply_call in *.
  rewrite Hg, Hn, Hg1, Hn1. lia.
Qed.

Lemma after_calls_tallies cs : forall s,
  Forall known_result cs -> tallies_consistent s ->
  tallies_consistent (after_calls s cs).
Proof.
  induction cs as [|c cs IH]; intros s Hk Hs; [exact Hs|].
  inversion Hk; subst. apply IH; [assumption|].
  now apply add_result_tallies.
Qed.

(** X1: every call of [add_result] counts one game and adds its nodes,
    whatever the result string; when all results are "win", "loss" or
    "draw" the games are the wins, losses and draws together, and the wins
    are the wins with White and the wins with Black together. *)
Theorem stats_tallies (name : string) (cs : list ResultCall) :
  let s := after_calls (new_stats name) cs in
  games_played s = Z.of_nat (length cs) /\
  total_nodes s = sum_nodes cs /\
  (Forall known_result cs ->
   games_played s = wins s + losses s + draws s /\
   wins s = wins_as_white s + wins_as_black s).
Proof.
  intros s. subst s.
  destruct (after_calls_counts cs (new_stats name)) as [Hg Hn].
  split; [rewrite Hg; reflexivity|]. split; [rewrite Hn; simpl; lia|].
  intros Hk.
  destruct (after_calls_tallies cs (new_stats name) Hk (new_stats_tallies name))
    as (H1 & H2 & _).
  now split.
Qed.

(** The points of an accumulator lie between zero and its games. *)
Definition points_bounded (s : TournamentStats) : Prop :=
  (0 <= points s)%Q /\ (points s <= inject_Z (games_played s))%Q.

Lemma add_result_points_bounded result color nodes s :
  points_bounded s -> points_bounded (add_result result color nodes s).
Proof.
  unfold points_bounded, add_result. intros [H0 H1].
  assert (Hs : (inject_Z (games_played s + 1) == inject_Z (games_played s) + 1)%Q)
    by (rewrite inject_Z_plus; reflexivity).
  destruct (String.eqb result "win");
    [destruct (String.eqb color "white")|
     destruct (String.eqb result "loss");
       [|destruct (String.eqb result "draw")]];
    simpl; rewrite Hs; split; lra.
Qed.

(** X2: the points of an accumulator are never negative and never exceed
    the number of games it has played: an unknown result string counts a
    game and no points.  So [to_dict] divides a number between zero and the
    games by the games. *)
Theorem stats_points_bounds (name : string) (cs : list ResultCall) :
  let s := after_calls (new_stats name) cs in
  (0 <= points s)%Q /\ (points s <= inject_Z (games_played s))%Q.
Proof.
  intros s. subst s.
  assert (H : forall s0, points_bounded s0 -> points_bounded (after_calls s0 cs)).
  { induction cs as [|c cs IH]; intros s0 Hs0; [exact Hs0|].
    apply IH. now apply add_result_points_bounded. }
  destruct (H (new_stats name)) as [H0 H1].
  { split; unfold Qle; simpl; lia. }
  split; [exact H0 | exact H1].
Qed.

Lemma stats_tallies_witness :
  let s := after_calls (new_stats "A")
             [mkCall "win" "white" 10; mkCall "draw" "black" 20;
              mkCall "loss" "white" 5] in
  games_played s = wins s + losses s + draws s /\
  wins s = wins_as_white s + wins_as_black s.
Proof.
  apply (stats_tallies "A"
           [mkCall "win" "white" 10; mkCall "draw" "black" 20;
            mkCall "loss" "white" 5]).
  repeat match goal with
         | |- Forall _ (_ :: _) =>
             constructor; [unfold known_result; simpl; auto|]
         end.
  constructor.
Defined.

End StatsFacts.

(** ** Tournament: the gauntlet, the standings data and the share of games *)

Module Schedule.

Import Tournament.

Section Facts.

Variable engines : gmap string EngineConfig.
Variable rng : nat -> nat.
Variable run_match : MatchSetup -> nat -> MatchResult.

(** X3: a gauntlet against [k] opponents over [r] rounds plans
    [k * r * 2] games; when the test engine and every opponent are
    registered and [r] is not negative it plays that many: in every round,
    for each opponent in turn, one game with the test engine as White and
    one with the colours reversed. *)
Theorem gauntlet_game_count (test_engine : string) (opponent_engines : list string)
    (t : Tournament) (w : World) :
  let k := Z.of_nat (length opponent_engines) in
  let tw' := run_gauntlet engines rng run_match test_engine opponent_engines
               (t, w) in
  total_games (fst tw') = k * rounds t * 2 /\
  (0 <= rounds t -> registered engines test_engine ->
   Forall (registered engines) opponent_engines ->
   current_game (fst tw') = current_game t + k * rounds t * 2 /\
   exists played,
     launched (snd tw') = launched w ++ played /\
     map colours played =
       concat (replicate (Z.to_nat (rounds t))
                 (flat_map
                    (fun opponent =>
                       [(path_of engines test_engine, path_of engines opponent);
                        (path_of engines opponent, path_of engines test_engine)])
                    opponent_engines))).
Proof.
  intros k tw'. subst tw'. unfold run_gauntlet.
  set (t1 := set_total_games _ _).
  set (ps := map (pair test_engine) opponent_engines).
  assert (Hr : rounds t1 = rounds t) by reflexivity.
  assert (Hc : current_game t1 = current_game t) by reflexivity.
  pose proof (play_rounds_effect engines rng run_match ps t1 w)
    as (_ & C2 & _ & L2).
  cbv zeta in *. split.
  - rewrite play_rounds_total. reflexivity.
  - intros Hpos Ht Ho.
    destruct (rounds_setups_registered engines rng t1 ps
                (Z.to_nat (rounds t1)) (draws_used w)
                (gauntlet_registered engines test_engine opponent_engines Ht Ho))
      as (Hcol & Hl).
    assert (Hlen : length ps = length opponent_engines)
      by (subst ps; apply length_map).
    split.
    + rewrite C2, Hc, Hl, Hr, Hlen, !Nat2Z.inj_mul, Z2Nat.id by assumption.
      change (Z.of_nat 2) with 2. fold k. lia.
    + eexists. split; [exact L2|]. rewrite Hcol, Hr. f_equal. f_equal.
      subst ps. clear. induction opponent_engines as [|o os IH]; [reflexivity|].
      simpl. now rewrite IH.
Qed.

(** *** What one game does to the standings data *)

(** The games an accumulator has counted, by name. *)
Definition games_of (t : Tournament) (x : string) : option Z :=
  games_played <$> (stats t !! x).

Lemma _play_game_recorded wc bc opening t w ws bs :
  stats t !! cfg_name wc = Some ws -> stats t !! cfg_name bc = Some bs ->
  exists rw rb,
    (rw = "win" \/ rw = "loss" \/ rw = "draw") /\
    (rb = "win" \/ rb = "loss" \/ rb = "draw") /\
    ((rw = "win" /\ rb = "loss") \/ (rw = "loss" /\ rb = "win") \/
     (rw = "draw" /\ rb = "draw")) /\
    let r := run_match (setup_of t wc bc opening) (length (launched w)) in
    fst (_play_game run_match wc bc opening (t, w)) =
      bump_current_game
        (append_game
           (set_stats t
              (alter (add_result rb "black" (nodes_black r)) (cfg_name bc)
                 (alter (add_result rw "white" (nodes_white r)) (cfg_name wc)
                    (stats t))))
           (mkGame (current_game t + 1) (cfg_name wc) (cfg_name bc) (winner r)
              (reason r) (Z.of_nat (length (moves r))) (pgn r))).
Proof.
  intros Hw Hb. unfold _play_game. fold (setup_of t wc bc opening).
  rewrite Hw, Hb.
  destruct (decide (winner _ = Some "white"));
    [|destruct (decide (winner _ = Some "black"))].
  - exists "win", "loss". repeat split; auto.
  - exists "loss", "win". repeat split; auto 6.
  - exists "draw", "draw". repeat split; auto 6.
Qed.

(** X4: a game whose two participants are different and both have an
    accumulator is recorded: together they gain exactly one point, each
    counts one game and the nodes of its side, nobody else's accumulator
    changes, and one game summary with the next game number is appended.
    A game one of whose participants has no accumulator is still counted as
    a slot, but leaves accumulators and summaries as they were. *)
Theorem game_bookkeeping (white_config black_config : EngineConfig)
    (opening : list string) (t : Tournament) (w : World) :
  let r := run_match (setup_of t white_config black_config opening)
             (length (launched w)) in
  let t' := fst (_play_game run_match white_config black_config opening (t, w)) in
  let wn := cfg_name white_config in
  let bn := cfg_name black_config in
  current_game t' = current_game t + 1 /\
  (stats t !! wn = None \/ stats t !! bn = None ->
   stats t' = stats t /\ games t' = games t) /\
  (forall ws bs,
     stats t !! wn = Some ws -> stats t !! bn = Some bs -> wn <> bn ->
     exists ws' bs',
       stats t' !! wn = Some ws' /\ stats t' !! bn = Some bs' /\
       (points ws' + points bs' == points ws + points bs + 1)%Q /\
       games_played ws' = games_played ws + 1 /\
       games_played bs' = games_played bs + 1 /\
       total_nodes ws' = total_nodes ws + nodes_white r /\
       total_nodes bs' = total_nodes bs + nodes_black r /\
       (forall other, other <> wn -> other <> bn ->
                      stats t' !! other = stats t !! other) /\
       games t' =
         games t ++ [mkGame (current_game t + 1) wn bn (winner r) (reason r)
                       (Z.of_nat (length (moves r))) (pgn r)]).
Proof.
  intros r t' wn bn.
  split; [apply (_play_game_effect run_match white_config black_config opening t w)|].
  split.
  - subst t'. unfold _play_game. fold wn bn.
    intros [Hn | Hn]; rewrite Hn; [|destruct (stats t !! wn)]; now split.
  - intros ws bs Hws Hbs Hne.
    destruct (_play_game_recorded white_config black_config opening t w ws bs
                Hws Hbs) as (rw & rb & Hrw & Hrb & Hsum & E).
    cbv zeta in E. fold r wn bn in E. subst t'. rewrite E. simpl.
    exists (add_result rw "white" (nodes_white r) ws),
           (add_result rb "black" (nodes_black r) bs).
    split.
    { rewrite lookup_alter_ne by congruence.
      now rewrite lookup_alter_eq, Hws. }
    split.
    { now rewrite lookup_alter_eq, lookup_alter_ne, Hbs by congruence. }
    destruct (StatsFacts.add_result_counts rw "white" (nodes_white r) ws)
      as (Hg1 & Hn1 & _).
    destruct (StatsFacts.add_result_counts rb "black" (nodes_black r) bs)
      as (Hg2 & Hn2 & _).
    split.
    { destruct Hsum as [[-> ->] | [[-> ->] | [-> ->]]]; simpl; ring. }
    repeat split; try assumption.
    intros other Ho1 Ho2. now rewrite !lookup_alter_ne by congruence.
Qed.

(** *** Invariants of the standings data *)

(** An accumulator filed under [key] is in order: it carries that name, its
    points are its wins plus half its draws, its counters add up, and its
    points do not exceed its games. *)
Definition accumulator_ok (key : string) (s : TournamentStats) : Prop :=
  engine_name s = key /\ points_consistent s /\
  StatsFacts.tallies_consistent s /\ StatsFacts.points_bounded s.

Lemma accumulator_ok_new key : accumulator_ok key (new_stats key).
Proof.
  split; [reflexivity|]. split; [apply new_stats_consistent|].
  split; [apply StatsFacts.new_stats_tallies|].
  split; unfold Qle; simpl; lia.
Qed.

Lemma accumulator_ok_add key result color nodes s :
  result = "win" \/ result = "loss" \/ result = "draw" ->
  accumulator_ok key s -> accumulator_ok key (add_result result color nodes s).
Proof.
  intros Hres (Hn & Hp & Ht & Hb).
  destruct (StatsFacts.add_result_counts result color nodes s) as (_ & _ & Hname).
  split; [congruence|]. split; [now apply add_result_consistent|].
  split; [now apply StatsFacts.add_result_tallies|].
  now apply StatsFacts.add_result_points_bounded.
Qed.

Lemma alter_keeps (f : TournamentStats -> TournamentStats) i
    (st : gmap string TournamentStats) :
  (forall s, accumulator_ok i s -> accumulator_ok i (f s)) ->
  map_Forall accumulator_ok st -> map_Forall accumulator_ok (alter f i st).
Proof.
  intros Hf Hst k v. rewrite lookup_alter.
  destruct (decide (i = k)) as [<-|_]; [|apply Hst].
  destruct (st !! i) as [s|] eqn:Hs; [|discriminate].
  simpl. intros E; inversion E; subst. apply Hf. now apply Hst.
Qed.

Definition standings_ok (tw : Tournament * World) : Prop :=
  map_Forall accumulator_ok (stats (fst tw)).

Lemma _play_game_keeps wc bc opening tw :
  standings_ok tw -> standings_ok (_play_game run_match wc bc opening tw).
Proof.
  destruct tw as [t w]. unfold standings_ok. cbn [fst]. intros Hok.
  destruct (stats t !! cfg_name wc) as [ws|] eqn:Hws.
  2:{ unfold _play_game. cbv beta iota zeta. rewrite ?Hws. assumption. }
  destruct (stats t !! cfg_name bc) as [bs|] eqn:Hbs.
  2:{ unfold _play_game. cbv beta iota zeta. rewrite ?Hws, ?Hbs. assumption. }
  destruct (_play_game_recorded wc bc opening t w ws bs Hws Hbs)
    as (rw & rb & Hrw & Hrb & _ & E).
  cbv zeta in E. rewrite E. simpl.
  apply alter_keeps; [intros s; now apply accumulator_ok_add|].
  apply alter_keeps; [intros s; now apply accumulator_ok_add|]. exact Hok.
Qed.

Lemma play_pairing_keeps tw p :
  standings_ok tw -> standings_ok (play_pairing engines rng run_match tw p).
Proof.
  destruct p as [a b], tw as [t w]. unfold play_pairing. intros Hok.
  destruct (get_engine engines a), (get_engine engines b); try exact Hok.
  destruct (choose_opening rng t w) as [o w1].
  apply _play_game_keeps, _play_game_keeps. exact Hok.
Qed.

Lemma play_rounds_keeps ps tw :
  standings_ok tw -> standings_ok (play_rounds engines rng run_match ps tw).
Proof.
  unfold play_rounds. generalize (Z.to_nat (rounds (fst tw))) as r.
  intros r Hok. induction r as [|r IH]; [exact Hok|].
  simpl. revert IH.
  generalize (Nat.iter r (play_round engines rng run_match ps) tw).
  clear Hok. unfold play_round.
  induction ps as [|p ps IHp]; intros tw1 Hok1; [exact Hok1|].
  simpl. apply IHp. now apply play_pairing_keeps.
Qed.

Lemma init_stats_lookup names : forall t x,
  stats (init_stats names t) !! x =
    if decide (x ∈ names) then Some (new_stats x) else stats t !! x.
Proof.
  unfold init_stats. simpl. intros t. generalize (stats t) as st. clear t.
  induction names as [|n ns IH]; intros st x; simpl.
  - destruct (decide (x ∈ [])) as [Hin|_]; [inversion Hin | reflexivity].
  - rewrite IH. destruct (decide (x ∈ ns)) as [Hin|Hnin].
    + rewrite decide_True by (now right). reflexivity.
    + destruct (decide (x = n)) as [->|Hne].
      * rewrite decide_True by left. now rewrite lookup_insert_eq.
      * rewrite decide_False, lookup_insert_ne by
          (try congruence; intros Hc; inversion Hc; subst; contradiction).
        reflexivity.
Qed.

Lemma init_stats_keeps names t w :
  standings_ok (t, w) -> standings_ok (init_stats names t, w).
Proof.
  unfold standings_ok. cbn [fst]. intros Hok k v.
  rewrite init_stats_lookup. destruct (decide (k ∈ names)); [|apply Hok].
  intros E; inversion E; subst. apply accumulator_ok_new.
Qed.

(** X5: a tournament keeps its standings data in order.  If every
    accumulator it starts with carries the name it is filed under, has
    points equal to wins plus half the draws, counters that add up and
    points within its games, the same holds for every accumulator after a
    round robin and after a gauntlet, whatever the matches return; and
    every name of the roster has an accumulator then. *)
Theorem tournament_keeps_standings (names : list string) (test_engine : string)
    (opponent_engines : list string) (t : Tournament) (w : World) :
  map_Forall accumulator_ok (stats t) ->
  let rr := fst (run_round_robin engines rng run_match names (t, w)) in
  let ga := fst (run_gauntlet engines rng run_match test_engine
                   opponent_engines (t, w)) in
  map_Forall accumulator_ok (stats rr) /\
  map_Forall accumulator_ok (stats ga) /\
  (forall x, x ∈ names -> is_Some (stats rr !! x)) /\
  (forall x, x ∈ test_engine :: opponent_engines -> is_Some (stats ga !! x)).
Proof.
  intros Hok rr ga.
  assert (Hrr : standings_ok (run_round_robin engines rng run_match names (t, w))).
  { unfold run_round_robin. apply play_rounds_keeps.
    exact (init_stats_keeps names t w Hok). }
  assert (Hga : standings_ok (run_gauntlet engines rng run_match test_engine
                                opponent_engines (t, w))).
  { unfold run_gauntlet. apply play_rounds_keeps.
    exact (init_stats_keeps _ t w Hok). }
  assert (Hdom : forall ps tw x,
            is_Some (stats (fst tw) !! x) ->
            is_Some (stats (fst (play_rounds engines rng run_match ps tw)) !! x)).
  { intros ps tw x. unfold play_rounds.
    generalize (Z.to_nat (rounds (fst tw))) as r. intros r Hx.
    induction r as [|r IH]; [exact Hx|]. simpl. revert IH.
    generalize (Nat.iter r (play_round engines rng run_match ps) tw).
    clear Hx. unfold play_round.
    induction ps as [|p ps IHp]; intros tw1 Hx1; [exact Hx1|].
    simpl. apply IHp. destruct p as [a b], tw1 as [t1 w1]. unfold play_pairing.
    destruct (get_engine engines a) as [ca|], (get_engine engines b) as [cb|];
      try exact Hx1.
    destruct (choose_opening rng t1 w1) as [o w2].
    assert (Hgame : forall wc bc tw2,
              is_Some (stats (fst tw2) !! x) ->
              is_Some (stats (fst (_play_game run_match wc bc o tw2)) !! x)).
    { intros wc bc [t2 w3] H2. simpl in H2.
      destruct (stats t2 !! cfg_name wc) as [ws|] eqn:Hws.
      2:{ unfold _play_game. cbv beta iota zeta. rewrite ?Hws. assumption. }
      destruct (stats t2 !! cfg_name bc) as [bs|] eqn:Hbs.
      2:{ unfold _play_game. cbv beta iota zeta. rewrite ?Hws, ?Hbs. assumption. }
      destruct (_play_game_recorded wc bc o t2 w3 ws bs Hws Hbs)
        as (rw & rb & _ & _ & _ & E).
      cbv zeta in E. rewrite E. simpl.
      rewrite !lookup_alter_is_Some. exact H2. }
    apply Hgame, Hgame. exact Hx1. }
  split; [exact Hrr|]. split; [exact Hga|]. split.
  - intros x Hx. subst rr. unfold run_round_robin. apply Hdom. cbn [fst].
    change (is_Some (stats (init_stats names t) !! x)).
    rewrite init_stats_lookup, decide_True by assumption. eauto.
  - intros x Hx. subst ga. unfold run_gauntlet. apply Hdom. cbn [fst].
    change (is_Some (stats (init_stats (test_engine :: opponent_engines) t) !! x)).
    rewrite init_stats_lookup, decide_True by assumption. eauto.
Qed.

(** *** The share of games of each engine *)

(** The registry files [x] under its own name. *)
Definition well_registered (x : string) : Prop :=
  exists cfg, get_engine engines x = Some cfg /\ cfg_name cfg = x.

Definition good_pair (p : string * string) : Prop :=
  p.1 <> p.2 /\ well_registered p.1 /\ well_registered p.2.

(** The pairings [x] takes part in. *)
Fixpoint meets (x : string) (ps : list (string * string)) : Z :=
  match ps with
  | [] => 0
  | p :: ps => (if decide (p.1 = x \/ p.2 = x) then 1 else 0) + meets x ps
  end.

Definition shifts (c : Z) (t t' : Tournament) : string -> Prop :=
  fun x => games_of t' x = (fun g => g + c) <$> games_of t x.

Lemma game_games_of wc bc opening t w x :
  is_Some (stats t !! cfg_name wc) -> is_Some (stats t !! cfg_name bc) ->
  cfg_name wc <> cfg_name bc ->
  games_of (fst (_play_game run_match wc bc opening (t, w))) x =
    (fun g => g + (if decide (cfg_name wc = x \/ cfg_name bc = x) then 1 else 0))
      <$> games_of t x.
Proof.
  intros [ws Hws] [bs Hbs] Hne.
  destruct (_play_game_recorded wc bc opening t w ws bs Hws Hbs)
    as (rw & rb & _ & _ & _ & E).
  cbv zeta in E. rewrite E. unfold games_of. simpl.
  rewrite !lookup_alter.
  destruct (decide (cfg_name bc = x)) as [<-|Nb].
  - rewrite decide_False by congruence.
    rewrite (decide_True (P := _ \/ _)) by (now right).
    rewrite Hbs. simpl. f_equal.
    apply (StatsFacts.add_result_counts rb "black" _ bs).
  - destruct (decide (cfg_name wc = x)) as [<-|Nw].
    + rewrite (decide_True (P := _ \/ _)) by (now left).
      rewrite Hws. simpl. f_equal.
      apply (StatsFacts.add_result_counts rw "white" _ ws).
    + rewrite (decide_False (P := _ \/ _)) by tauto.
      destruct (stats t !! x) as [s|]; [|reflexivity]. simpl. f_equal. lia.
Qed.

Lemma pairing_games_of p t w x :
  good_pair p ->
  is_Some (stats t !! p.1) -> is_Some (stats t !! p.2) ->
  games_of (fst (play_pairing engines rng run_match (t, w) p)) x =
    (fun g => g + 2 * (if decide (p.1 = x \/ p.2 = x) then 1 else 0))
      <$> games_of t x.
Proof.
  destruct p as [a b].
  intros (Hne & (ca & Ha & Hca) & (cb & Hb & Hcb)) Hpa Hpb.
  cbn [fst snd] in *.
  unfold play_pairing. rewrite Ha, Hb.
  destruct (choose_opening rng t w) as [o w1].
  pose proof (game_games_of ca cb o t w1) as G1.
  rewrite Hca, Hcb in G1.
  destruct (_play_game run_match ca cb o (t, w1)) as [t1 w2] eqn:E1.
  simpl in G1.
  pose proof (game_games_of cb ca o t1 w2 x) as G2.
  rewrite Hca, Hcb in G2.
  assert (Hsome : forall y, is_Some (stats t !! y) -> is_Some (stats t1 !! y)).
  { intros y Hy. specialize (G1 y Hpa Hpb Hne). unfold games_of in G1.
    destruct Hy as [s Hs]. rewrite Hs in G1. simpl in G1.
    destruct (stats t1 !! y); [eauto | discriminate]. }
  rewrite G2 by (try apply Hsome; try assumption; congruence).
  rewrite (G1 x Hpa Hpb Hne).
  destruct (games_of t x) as [g|]; [|reflexivity]. simpl. f_equal.
  destruct (decide (a = x \/ b = x)) as [Hd|Hd].
  - rewrite decide_True by tauto. lia.
  - rewrite decide_False by tauto. lia.
Qed.

Lemma round_games_of ps : forall t w,
  Forall good_pair ps ->
  (forall p, p ∈ ps -> is_Some (stats t !! p.1) /\ is_Some (stats t !! p.2)) ->
  forall x,
  games_of (fst (play_round engines rng run_match ps (t, w))) x =
    (fun g => g + 2 * meets x ps) <$> games_of t x.
Proof.
  unfold play_round.
  induction ps as [|p ps IH]; intros t w Hgood Hpres x.
  - simpl. destruct (games_of t x); simpl; [f_equal; lia|reflexivity].
  - inversion Hgood as [|? ? Hp Hps]; subst.
    assert (Hp12 : is_Some (stats t !! p.1) /\ is_Some (stats t !! p.2))
      by (apply Hpres; left).
    destruct Hp12 as [Hp1 Hp2].
    pose proof (fun y => pairing_games_of p t w y Hp Hp1 Hp2) as G1.
    simpl. destruct (play_pairing engines rng run_match (t, w) p) as [t1 w1].
    cbn [fst] in G1.
    assert (Hsome : forall y, is_Some (stats t !! y) -> is_Some (stats t1 !! y)).
    { intros y [s Hs]. specialize (G1 y). unfold games_of in G1.
      rewrite Hs in G1. simpl in G1.
      destruct (stats t1 !! y); [eauto | discriminate]. }
    rewrite IH, G1; [|assumption|].
    + destruct (games_of t x); simpl; [f_equal; lia|reflexivity].
    + intros q Hq.
      assert (Hq12 : is_Some (stats t !! q.1) /\ is_Some (stats t !! q.2))
        by (apply Hpres; now right).
      destruct Hq12. split; now apply Hsome.
Qed.

Lemma round_keeps_rows ps t w y :
  Forall good_pair ps ->
  (forall p, p ∈ ps -> is_Some (stats t !! p.1) /\ is_Some (stats t !! p.2)) ->
  is_Some (stats t !! y) ->
  is_Some (stats (fst (play_round engines rng run_match ps (t, w))) !! y).
Proof.
  intros Hgood Hpres [s Hs].
  pose proof (round_games_of ps t w Hgood Hpres y) as G.
  set (t' := fst (play_round engines rng run_match ps (t, w))) in *.
  unfold games_of in G. rewrite Hs in G.
  destruct (stats t' !! y); [eauto | discriminate].
Qed.

Lemma rounds_games_of ps r : forall t w x,
  Forall good_pair ps ->
  (forall p, p ∈ ps -> is_Some (stats t !! p.1) /\ is_Some (stats t !! p.2)) ->
  games_of (fst (Nat.iter r (play_round engines rng run_match ps) (t, w))) x =
    (fun g => g + 2 * Z.of_nat r * meets x ps) <$> games_of t x.
Proof.
  induction r as [|r IH]; intros t w x Hgood Hpres.
  - simpl. destruct (games_of t x); simpl; [f_equal; lia|reflexivity].
  - rewrite Nat.iter_succ_r.
    pose proof (round_games_of ps t w Hgood Hpres x) as G1.
    pose proof (fun y => round_keeps_rows ps t w y Hgood Hpres) as Hsome.
    destruct (play_round engines rng run_match ps (t, w)) as [t1 w1].
    cbn [fst] in Hsome, G1.
    rewrite IH, G1; [|assumption|].
    + destruct (games_of t x); simpl; [f_equal; lia|reflexivity].
    + intros p Hp. destruct (Hpres p Hp). split; now apply Hsome.
Qed.

(** In the pairings of a roster without repetition every name meets each
    of the others once. *)
Lemma meets_fresh x y (l : list string) :
  x <> y -> x ∉ l -> meets x (map (pair y) l) = 0.
Proof.
  intros Hne. induction l as [|z l IH]; intros Hnin; [reflexivity|].
  simpl. rewrite decide_False.
  - rewrite IH; [reflexivity|]. intros Hin. apply Hnin. now right.
  - intros [->| ->]; [congruence|]. apply Hnin. left.
Qed.

Lemma meets_first y (l : list string) :
  meets y (map (pair y) l) = Z.of_nat (length l).
Proof.
  induction l as [|z l IH]; [reflexivity|].
  simpl length. rewrite Nat2Z.inj_succ. simpl.
  rewrite decide_True by (now left). lia.
Qed.

Lemma meets_second x y (l : list string) :
  x <> y -> NoDup l -> x ∈ l -> meets x (map (pair y) l) = 1.
Proof.
  intros Hne. induction l as [|z l IH]; intros Hnd Hin; [inversion Hin|].
  inversion Hnd as [|? ? Hz Hl]; subst. simpl.
  destruct (decide (z = x)) as [->|Hzx].
  - rewrite decide_True by (now right).
    rewrite meets_fresh by assumption. reflexivity.
  - rewrite decide_False by (intros [->|E]; congruence).
    rewrite IH; [reflexivity | assumption |].
    inversion Hin; subst; [congruence | assumption].
Qed.

Lemma meets_none x (l : list string) : x ∉ l -> meets x (combinations2 l) = 0.
Proof.
  induction l as [|y l IH]; intros Hnin; [reflexivity|].
  simpl.
  assert (Hxy : x <> y) by (intros ->; apply Hnin; left).
  assert (Hl : x ∉ l) by (intros Hin; apply Hnin; now right).
  assert (Happ : forall a b, meets x (a ++ b) = meets x a + meets x b).
  { intros a b. induction a as [|p a IHa]; simpl; [reflexivity|]. rewrite IHa. lia. }
  rewrite Happ, meets_fresh, IH by assumption. reflexivity.
Qed.

Lemma meets_combinations x (l : list string) :
  NoDup l -> x ∈ l -> meets x (combinations2 l) = Z.of_nat (length l) - 1.
Proof.
  assert (Happ : forall a b, meets x (a ++ b) = meets x a + meets x b).
  { intros a b. induction a as [|p a IHa]; simpl; [reflexivity|]. rewrite IHa. lia. }
  induction l as [|y l IH]; intros Hnd Hin; [inversion Hin|].
  inversion Hnd as [|? ? Hy Hl]; subst.
  simpl combinations2. rewrite Happ. simpl length. rewrite Nat2Z.inj_succ.
  destruct (decide (x = y)) as [->|Hxy].
  - rewrite meets_first, meets_none by assumption. lia.
  - assert (Hxl : x ∈ l) by (inversion Hin; subst; [congruence | assumption]).
    rewrite meets_second, IH by assumption. lia.
Qed.

(** X6: in a round robin over a roster of [n] different names, each filed
    in the registry under its own name, every engine of the roster plays
    [2 * (n - 1) * r] games in [r] rounds: its accumulator shows exactly
    that many at the end. *)
Theorem round_robin_share (names : list string) (t : Tournament) (w : World)
    (x : string) :
  NoDup names -> Forall well_registered names -> x ∈ names ->
  let n := Z.of_nat (length names) in
  let t' := fst (run_round_robin engines rng run_match names (t, w)) in
  games_of t' x = Some (2 * (n - 1) * Z.of_nat (Z.to_nat (rounds t))).
Proof.
  intros Hnd Hreg Hx n t'. subst t'. unfold run_round_robin, play_rounds.
  cbn [fst]. set (t1 := set_total_games _ _).
  assert (Hstats : forall y, stats t1 !! y = stats (init_stats names t) !! y)
    by reflexivity.
  rewrite rounds_games_of.
  - unfold games_of. rewrite Hstats, init_stats_lookup, decide_True by assumption.
    simpl. rewrite meets_combinations by assumption. f_equal. subst t1. simpl.
    fold n. lia.
  - apply Forall_forall. intros [a b] Hab.
    pose proof Hab as Hab'. apply combinations2_lookup in Hab'
      as (i & j & Hij & Hi & Hj).
    rewrite Forall_forall in Hreg.
    apply combinations2_members in Hab as [Ha Hb].
    split; [|split; apply Hreg; assumption]. simpl. intros ->.
    assert (i = j); [|lia].
    eapply NoDup_lookup; eassumption.
  - intros [a b] Hab. apply combinations2_members in Hab as [Ha Hb].
    cbn [fst snd].
    split; rewrite Hstats, init_stats_lookup, decide_True by assumption; eauto.
Qed.

(** X7: in a gauntlet against [k] different opponents, none of them the
    test engine, all filed in the registry under their own names, the test
    engine plays [2 * k * r] games in [r] rounds and each opponent
    [2 * r]. *)
Theorem gauntlet_share (test_engine : string) (opponent_engines : list string)
    (t : Tournament) (w : World) :
  NoDup opponent_engines -> test_engine ∉ opponent_engines ->
  well_registered test_engine -> Forall well_registered opponent_engines ->
  let k := Z.of_nat (length opponent_engines) in
  let r := Z.of_nat (Z.to_nat (rounds t)) in
  let t' := fst (run_gauntlet engines rng run_match test_engine
                   opponent_engines (t, w)) in
  games_of t' test_engine = Some (2 * k * r) /\
  (forall o, o ∈ opponent_engines -> games_of t' o = Some (2 * r)).
Proof.
  intros Hnd Hnin Ht Ho k r t'. subst t'. unfold run_gauntlet, play_rounds.
  cbn [fst]. set (t1 := set_total_games _ _).
  assert (Hstats : forall y,
            stats t1 !! y = stats (init_stats (test_engine :: opponent_engines) t) !! y)
    by reflexivity.
  assert (Hgood : Forall good_pair (map (pair test_engine) opponent_engines)).
  { apply Forall_forall. intros [a b] Hab.
    apply list_elem_of_fmap in Hab as (o & E & Hin). inversion E; subst.
    rewrite Forall_forall in Ho. split; [|split; [exact Ht | now apply Ho]].
    simpl. intros ->. contradiction. }
  assert (Hpres : forall p, p ∈ map (pair test_engine) opponent_engines ->
            is_Some (stats t1 !! p.1) /\ is_Some (stats t1 !! p.2)).
  { intros [a b] Hab.
    apply list_elem_of_fmap in Hab as (o & E & Hin). inversion E; subst.
    cbn [fst snd].
    split; rewrite Hstats, init_stats_lookup, decide_True
      by (try left; now right); eauto. }
  split.
  - rewrite rounds_games_of by assumption.
    unfold games_of. rewrite Hstats, init_stats_lookup, decide_True by left.
    simpl. rewrite meets_first. f_equal. subst t1 k r. simpl. lia.
  - intros o Hin. rewrite rounds_games_of by assumption.
    unfold games_of.
    rewrite Hstats, init_stats_lookup, decide_True by (now right).
    simpl. rewrite meets_second; [| |assumption..].
    + f_equal. subst t1 r. simpl. lia.
    + intros ->. contradiction.
Qed.

End Facts.

(** *** The facts above on the small tournaments *)

Lemma demo_well_registered :
  Forall (well_registered demo_engines) ["A"; "B"; "C"].
Proof.
  repeat match goal with
         | |- Forall _ (_ :: _) => constructor; [eexists; split; reflexivity|]
         end.
  constructor.
Qed.

Lemma demo_registered : Forall (registered demo_engines) ["B"; "C"].
Proof.
  repeat match goal with
         | |- Forall _ (_ :: _) => constructor; [eexists; reflexivity|]
         end.
  constructor.
Qed.

Lemma demo_roster_nodup : NoDup ["A"; "B"; "C"].
Proof. apply (bool_decide_unpack _). vm_compute. exact I. Qed.

(** One round against two opponents: four games. *)
Lemma gauntlet_game_count_witness :
  let tw' := run_gauntlet demo_engines counting_rng drawn_match "A" ["B"; "C"]
               (new_tournament "cup" 60000 0 1 [], start_world) in
  total_games (fst tw') = 4 /\ current_game (fst tw') = 4 /\
  map colours (launched (snd tw')) =
    [("Engines/A.exe", "Engines/B.exe"); ("Engines/B.exe", "Engines/A.exe");
     ("Engines/A.exe", "Engines/C.exe"); ("Engines/C.exe", "Engines/A.exe")].
Proof.
  destruct (gauntlet_game_count demo_engines counting_rng drawn_match
              "A" ["B"; "C"] (new_tournament "cup" 60000 0 1 []) start_world)
    as (Htotal & Hplayed).
  destruct Hplayed as (Hcur & played & Hl & Hcol).
  - simpl. lia.
  - eexists; reflexivity.
  - exact demo_registered.
  - cbv zeta. split; [exact Htotal|]. split; [exact Hcur|].
    rewrite Hl. exact Hcol.
Defined.

(** A drawn game between "A" and "B" in a fresh tournament. *)
Lemma game_bookkeeping_witness :
  let a := mkConfig "A" "Engines/A.exe" true 60000 in
  let b := mkConfig "B" "Engines/B.exe" true 60000 in
  let t := init_stats ["A"; "B"] (new_tournament "cup" 60000 0 1 []) in
  let t' := fst (_play_game drawn_match a b [] (t, start_world)) in
  exists ws' bs',
    stats t' !! "A" = Some ws' /\ stats t' !! "B" = Some bs' /\
    (points ws' + points bs' == 1)%Q /\
    total_nodes ws' = 10 /\ total_nodes bs' = 20 /\
    length (games t') = 1%nat.
Proof.
  intros a b t t'.
  destruct (game_bookkeeping drawn_match a b [] t start_world)
    as (_ & _ & Hrec).
  destruct (Hrec (new_stats "A") (new_stats "B"))
    as (ws' & bs' & Hw & Hb & Hp & _ & _ & Hnw & Hnb & _ & Hg);
    [reflexivity | reflexivity | discriminate |].
  exists ws', bs'. split; [exact Hw|]. split; [exact Hb|].
  split; [rewrite Hp; reflexivity|].
  split; [rewrite Hnw; reflexivity|]. split; [rewrite Hnb; reflexivity|].
  subst t'. rewrite Hg. reflexivity.
Defined.

(** A fresh tournament has no accumulator out of order. *)
Lemma tournament_keeps_standings_witness :
  let t' := fst (run_round_robin demo_engines counting_rng failed_match
                   ["A"; "B"; "C"]
                   (new_tournament "cup" 60000 0 2 [], start_world)) in
  map_Forall accumulator_ok (stats t') /\ is_Some (stats t' !! "C").
Proof.
  destruct (tournament_keeps_standings demo_engines counting_rng failed_match
              ["A"; "B"; "C"] "A" ["B"; "C"]
              (new_tournament "cup" 60000 0 2 []) start_world)
    as (Hrr & _ & Hrows & _).
  - simpl. apply map_Forall_empty.
  - split; [exact Hrr|]. apply Hrows. repeat constructor.
Defined.

(** Three engines, two rounds: eight games each. *)
Lemma round_robin_share_witness :
  games_of (fst (run_round_robin demo_engines counting_rng drawn_match
                   ["A"; "B"; "C"]
                   (new_tournament "cup" 60000 0 2 [], start_world))) "B"
    = Some 8.
Proof.
  apply (round_robin_share demo_engines counting_rng drawn_match
           ["A"; "B"; "C"] (new_tournament "cup" 60000 0 2 []) start_world "B").
  - exact demo_roster_nodup.
  - exact demo_well_registered.
  - repeat constructor.
Defined.

(** "A" against "B" and "C", two rounds: eight games for "A", four for
    each opponent. *)
Lemma gauntlet_share_witness :
  let t' := fst (run_gauntlet demo_engines counting_rng drawn_match "A"
                   ["B"; "C"]
                   (new_tournament "cup" 60000 0 2 [], start_world)) in
  games_of t' "A" = Some 8 /\ games_of t' "C" = Some 4.
Proof.
  destruct (gauntlet_share demo_engines counting_rng drawn_match "A" ["B"; "C"]
              (new_tournament "cup" 60000 0 2 []) start_world)
    as [Ha Ho].
  - pose proof demo_roster_nodup as H. inversion H; assumption.
  - rewrite !elem_of_cons, elem_of_nil. intuition discriminate.
  - pose proof demo_well_registered as H. inversion H; assumption.
  - pose proof demo_well_registered as H. inversion H; assumption.
  - split; [exact Ha|]. apply Ho. repeat constructor.
Defined.

End Schedule.

(** ** Match: what every game satisfies *)

Module MatchFacts.

(** The clocks and node counts of a result, as against those of a state. *)
Definition final_time_white : MatchResult -> Z := time_white.
Definition final_time_black : MatchResult -> Z := time_black.
Definition final_nodes_white : MatchResult -> Z := nodes_white.
Definition final_nodes_black : MatchResult -> Z := nodes_black.

Import Match.

Section Facts.

Context {Board Move : Type} `{Rules Board Move}.

Variable generate_pgn : list string -> option string -> string -> string.
Variable m : Match.
Variable white_engine black_engine : Engine.

Local Abbreviation ply := (Match.ply m white_engine black_engine).
Local Abbreviation play_loop := (Match.play_loop m white_engine black_engine).
Local Abbreviation play :=
  (Match.play generate_pgn m white_engine black_engine).

(** *** The opening prefix *)

(** Making the moves of [stack] one after the other from [b], each legal
    where it is made. *)
Fixpoint replay (b : Board) (stack : list Move) : option Board :=
  match stack with
  | [] => Some b
  | move :: rest => if legal b move then replay (push b move) rest else None
  end.

Lemma replay_app b stack1 stack2 :
  replay b (stack1 ++ stack2) = replay b stack1 ≫= fun b' => replay b' stack2.
Proof.
  revert b. induction stack1 as [|mv st IH]; intros b; [reflexivity|].
  simpl. destruct (legal b mv); [apply IH | reflexivity].
Qed.

(** X8: the opening prefix is applied move by move and given up at the
    first token that does not parse or is not legal where it stands: the
    tokens before it are all made, none after it is, and the board is the
    one reached by the moves made. *)
Theorem opening_prefix (tokens : list string) (b : Board) (stack : list Move) :
  let '(b', stack') := play_opening tokens b stack in
  exists made,
    stack' = stack ++ made /\
    replay b made = Some b' /\
    map from_uci (take (length made) tokens) = map Some made /\
    match drop (length made) tokens with
    | [] => True
    | token :: _ =>
        match from_uci token with
        | None => True
        | Some move => legal b' move = false
        end
    end.
Proof.
  revert b stack. induction tokens as [|token tokens IH]; intros b stack.
  - simpl. exists []. now rewrite app_nil_r.
  - simpl. destruct (from_uci token) as [move|] eqn:Hparse.
    + destruct (legal b move) eqn:Hlegal.
      * specialize (IH (push b move) (stack ++ [move])).
        destruct (play_opening tokens (push b move) (stack ++ [move]))
          as [b' stack'].
        destruct IH as (made & Hs & Hr & Hm & Hd).
        exists (move :: made). simpl. rewrite Hlegal, Hparse, Hm.
        rewrite Hs, <- app_assoc. repeat split; assumption.
      * exists []. simpl. rewrite app_nil_r, Hparse. now repeat split.
    + exists []. simpl. rewrite app_nil_r, Hparse. now repeat split.
Qed.

Lemma play_opening_length tokens : forall b stack,
  (length (snd (play_opening tokens b stack)) <= length stack + length tokens)%nat.
Proof.
  induction tokens as [|token tokens IH]; intros b stack; simpl; [lia|].
  destruct (from_uci token) as [move|]; [|simpl; lia].
  destruct (legal b move); [|simpl; lia].
  specialize (IH (push b move) (stack ++ [move])).
  rewrite length_app in IH. simpl in IH. lia.
Qed.

(** *** The game loop *)

(** The position of a state is the start position with its moves made. *)
Definition consistent (s : @State Board Move) : Prop :=
  replay start_board (move_stack s) = Some (board s).

Lemma play_opening_replay tokens : forall b stack b0,
  replay b0 stack = Some b ->
  replay b0 (snd (play_opening tokens b stack))
    = Some (fst (play_opening tokens b stack)).
Proof.
  induction tokens as [|token tokens IH]; intros b stack b0 Hr; [exact Hr|].
  simpl. destruct (from_uci token) as [move|]; [|exact Hr].
  destruct (legal b move) eqn:Hlegal; [|exact Hr].
  apply IH. rewrite replay_app, Hr. simpl. now rewrite Hlegal.
Qed.

Lemma start_state_consistent : consistent (start_state m).
Proof.
  unfold consistent, start_state.
  pose proof (play_opening_replay (opening_moves m) start_board [] start_board
                eq_refl) as Ho.
  destruct (play_opening (opening_moves m) start_board []) as [b stack].
  exact Ho.
Qed.

Lemma ply_consistent s s' forfeit :
  consistent s -> ply s = Moved s' forfeit -> consistent s'.
Proof.
  unfold consistent. intros Hs Hply.
  apply ply_moved in Hply as (_ & _ & move & _ & Hlegal & Hb & Hst & _).
  rewrite Hst, replay_app, Hs, Hb. simpl. now rewrite Hlegal.
Qed.

(** How a loop that was entered at [s] with [r] passes left can end. *)
Definition loop_end_ok (s : @State Board Move) (r : nat) (e : LoopEnd) : Prop :=
  match e with
  | LoopCrashed _ _ => True
  | LoopBroken s' winner reason =>
      (winner = "white" \/ winner = "black") /\
      (reason = "Engine failure" \/ reason = "Illegal move" \/
       reason = "Time forfeit") /\
      consistent s' /\
      (length (move_stack s') <= length (move_stack s) + r)%nat
  | LoopDone s' =>
      consistent s' /\
      (length (move_stack s') <= length (move_stack s) + r)%nat
  end.

Lemma color_name_cases c : color_name c = "white" \/ color_name c = "black".
Proof. destruct c; auto. Qed.

Lemma play_loop_end r : forall s,
  consistent s -> loop_end_ok s r (play_loop r s).
Proof.
  induction r as [|r IH]; intros s Hs; simpl.
  - split; [exact Hs | lia].
  - destruct (is_game_over (board s)); [split; [exact Hs | lia]|].
    destruct (ply s) as [cls msg|winner reason|s' forfeit] eqn:Hply; simpl.
    + exact I.
    + unfold Match.ply in Hply.
      destruct (think _ _ _ _ _) as [[mr elapsed]|]; [|discriminate].
      split; [|split; [|split; [exact Hs | lia]]].
      * destruct (bestmove mr) as [[|a tok]|];
          [inversion Hply; apply color_name_cases|
           |inversion Hply; apply color_name_cases].
        destruct (from_uci (String a tok)) as [mv|];
          [|inversion Hply; apply color_name_cases].
        destruct (legal (board s) mv); [discriminate|].
        inversion Hply; apply color_name_cases.
      * destruct (bestmove mr) as [[|a tok]|];
          [inversion Hply; auto| |inversion Hply; auto].
        destruct (from_uci (String a tok)) as [mv|]; [|inversion Hply; auto].
        destruct (legal (board s) mv); [discriminate|].
        inversion Hply; auto.
    + pose proof (ply_consistent s s' forfeit Hs Hply) as Hs'.
      pose proof Hply as Hinv.
      apply ply_moved in Hinv as (_ & _ & move & _ & _ & _ & Hst & _ & _ & _ & Hf).
      assert (Hlen : length (move_stack s') = S (length (move_stack s)))
        by (rewrite Hst, length_app; simpl; lia).
      destruct forfeit as [winner|].
      * simpl. split; [|split; [auto|split; [exact Hs' | lia]]].
        destruct (time_white s' <=? 0); [inversion Hf; auto|].
        destruct (time_black s' <=? 0); [inversion Hf; auto | discriminate].
      * specialize (IH s' Hs'). unfold loop_end_ok in *.
        destruct (play_loop r s') as [| s2 w2 r2 | s2]; [exact I| |].
        -- destruct IH as (? & ? & ? & ?). repeat split; try assumption. lia.
        -- destruct IH as (? & ?). split; [assumption | lia].
Qed.

Lemma adjudicate_cases s :
  (fst (adjudicate m s) = "white" \/ fst (adjudicate m s) = "black" \/
   fst (adjudicate m s) = "draw") /\
  snd (adjudicate m s) <> "".
Proof.
  unfold adjudicate.
  destruct (is_checkmate (board s));
    [destruct (turn (board s)); simpl; split; auto; discriminate|].
  destruct (is_stalemate (board s)); [simpl; split; auto; discriminate|].
  destruct (is_insufficient_material (board s));
    [simpl; split; auto; discriminate|].
  destruct (is_fifty_moves (board s)); [simpl; split; auto; discriminate|].
  destruct (is_repetition (board s)); [simpl; split; auto; discriminate|].
  destruct (max_moves m <=? move_count s); simpl; split; auto; discriminate.
Qed.

(** X9: every match ends with winner "white", "black", "draw" or "error".
    Unless the winner is "error" the reason is not empty, the moves of the
    result are the moves of a legal game from the start position, and
    there are no more of them than the opening prefix has tokens plus
    [max_moves].  With winner "error" the result is the fresh record: no
    moves, no game text, clocks and nodes at zero. *)
Theorem play_result_shape :
  (winner play = Some "white" \/ winner play = Some "black" \/
   winner play = Some "draw" \/ winner play = Some "error") /\
  (winner play <> Some "error" ->
   reason play <> "" /\
   (exists stack end_board,
      moves play = map uci stack /\
      replay start_board stack = Some end_board) /\
   (length (moves play)
    <= length (opening_moves m) + Z.to_nat (max_moves m))%nat) /\
  (winner play = Some "error" -> play = error_result (reason play)).
Proof.
  unfold Match.play.
  destruct (startup m white_engine black_engine) as [u|cls msg].
  2:{ split; [auto|]. split; [intros Hc; now contradiction Hc | reflexivity]. }
  pose proof (play_loop_end (Z.to_nat (max_moves m)) (start_state m)
                start_state_consistent) as Hend.
  assert (Hstart : (length (move_stack (start_state m))
                    <= length (opening_moves m))%nat).
  { unfold start_state.
    pose proof (play_opening_length (opening_moves m) start_board []) as Hl.
    destruct (play_opening (opening_moves m) start_board []). simpl in *. lia. }
  destruct (Match.play_loop m white_engine black_engine _ _)
    as [cls msg | s' w r | s']; simpl in Hend.
  - split; [auto|]. split; [intros Hc; now contradiction Hc | reflexivity].
  - destruct Hend as (Hw & Hr & Hcons & Hlen). simpl.
    split; [destruct Hw as [-> | ->]; auto|].
    split.
    + intros _. split; [destruct Hr as [-> | [-> | ->]]; discriminate|].
      split; [exists (move_stack s'), (board s'); now split|].
      rewrite length_map. lia.
    + destruct Hw as [-> | ->]; discriminate.
  - destruct Hend as (Hcons & Hlen).
    destruct (adjudicate_cases s') as [Hw Hr].
    destruct (adjudicate m s') as [w r]. simpl in *.
    split; [destruct Hw as [-> | [-> | ->]]; auto|].
    split.
    + intros _. split; [exact Hr|].
      split; [exists (move_stack s'), (board s'); now split|].
      rewrite length_map. lia.
    + destruct Hw as [-> | [-> | ->]]; discriminate.
Qed.

(** [passes n s0 s]: from [s0] the loop makes [n] passes, each of which
    makes a move and leaves both clocks running, and stands at [s]. *)
Inductive passes : nat -> @State Board Move -> @State Board Move -> Prop :=
  | passes_none s : passes 0 s s
  | passes_more n s0 s s' :
      passes n s0 s -> is_game_over (board s) = false ->
      ply s = Moved s' None -> passes (S n) s0 s'.

Lemma play_loop_passes n s0 s :
  passes n s0 s -> forall r, play_loop (n + r) s0 = play_loop r s.
Proof.
  induction 1 as [|n s0 s s' _ IH Hover Hply]; intros r; [reflexivity|].
  replace (S n + r)%nat with (n + S r)%nat by lia.
  rewrite IH. simpl. now rewrite Hover, Hply.
Qed.

Lemma play_after_passes n s :
  startup m white_engine black_engine = Returned tt ->
  passes n (start_state m) s -> (n < Z.to_nat (max_moves m))%nat ->
  exists r,
    play = match play_loop (S r) s with
           | LoopCrashed _ msg => error_result msg
           | LoopBroken s' winner reason => finish generate_pgn s' winner reason
           | LoopDone s' =>
               let '(winner, reason) := adjudicate m s' in
               finish generate_pgn s' winner reason
           end.
Proof.
  intros Hstart Hp Hn. exists (Z.to_nat (max_moves m) - S n)%nat.
  unfold Match.play. rewrite Hstart.
  replace (Z.to_nat (max_moves m)) with (n + S (Z.to_nat (max_moves m) - S n))%nat
    at 1 by lia.
  now rewrite (play_loop_passes n _ _ Hp).
Qed.

(** X10: when, at any point of a game, the engine to move answers [go]
    without a best move, the game ends there: the opponent of the mover
    wins with reason "Engine failure", and the result holds the moves,
    clocks and node counts as they stood before that [go]. *)
Theorem no_bestmove_loses (n : nat) (s : @State Board Move)
    (move_result : MoveResult) (elapsed : Z) :
  startup m white_engine black_engine = Returned tt ->
  passes n (start_state m) s -> (n < Z.to_nat (max_moves m))%nat ->
  is_game_over (board s) = false ->
  think (engine_of white_engine black_engine (turn (board s)))
    (map uci (move_stack s)) (time_white s) (time_black s) (increment m)
    = Returned (move_result, elapsed) ->
  bestmove move_result = None \/ bestmove move_result = Some "" ->
  let opponent := color_name (opposite (turn (board s))) in
  winner play = Some opponent /\ reason play = "Engine failure" /\
  moves play = map uci (move_stack s) /\
  final_time_white play = time_white s /\
  final_time_black play = time_black s /\
  final_nodes_white play = nodes_white s /\
  final_nodes_black play = nodes_black s.
Proof.
  intros Hstart Hp Hn Hover Hthink Hbest opponent.
  destruct (play_after_passes n s Hstart Hp Hn) as [r ->].
  simpl. rewrite Hover. unfold Match.ply. rewrite Hthink.
  destruct Hbest as [-> | ->]; now repeat split.
Qed.

(** X11: an exception raised while a move is asked for ends the match in
    its handler however far the game has come: the result is the error
    record with the text of the exception as reason, and the moves played
    so far are not in it. *)
Theorem crash_discards_game (n : nat) (s : @State Board Move)
    (cls msg : string) :
  startup m white_engine black_engine = Returned tt ->
  passes n (start_state m) s -> (n < Z.to_nat (max_moves m))%nat ->
  is_game_over (board s) = false ->
  think (engine_of white_engine black_engine (turn (board s)))
    (map uci (move_stack s)) (time_white s) (time_black s) (increment m)
    = Raised cls msg ->
  play = error_result msg /\ winner play = Some "error" /\ moves play = [].
Proof.
  intros Hstart Hp Hn Hover Hthink.
  destruct (play_after_passes n s Hstart Hp Hn) as [r ->].
  simpl. rewrite Hover. unfold Match.ply. rewrite Hthink. now repeat split.
Qed.

(** X12: a game that is not cut short ends after [max_moves] moves by the
    engines at the latest, and is then drawn as "Maximum moves (N) reached"
    unless the position reached is a checkmate, a stalemate, or drawn by
    material, the fifty-move rule or repetition. *)
Theorem max_moves_draw (s : @State Board Move) :
  startup m white_engine black_engine = Returned tt ->
  0 <= max_moves m ->
  passes (Z.to_nat (max_moves m)) (start_state m) s ->
  is_checkmate (board s) = false -> is_stalemate (board s) = false ->
  is_insufficient_material (board s) = false ->
  is_fifty_moves (board s) = false -> is_repetition (board s) = false ->
  winner play = Some "draw" /\
  reason play = "Maximum moves (" +:+ pretty (max_moves m) +:+ ") reached" /\
  moves play = map uci (move_stack s) /\
  Match.move_count s = max_moves m.
Proof.
  intros Hstart Hmax Hp H1 H2 H3 H4 H5.
  assert (Hcount : forall k s0 s1, passes k s0 s1 ->
            Match.move_count s1 = Match.move_count s0 + Z.of_nat k).
  { induction 1 as [|k s0 s1 s2 _ IH _ Hply]; [lia|].
    apply ply_moved in Hply as (_ & _ & _ & _ & _ & _ & _ & Hc & _). lia. }
  assert (Hmc : Match.move_count s = max_moves m).
  { rewrite (Hcount _ _ _ Hp). unfold start_state.
    destruct (play_opening _ _ _). simpl. lia. }
  unfold Match.play. rewrite Hstart.
  pose proof (play_loop_passes _ _ _ Hp 0%nat) as Hl.
  rewrite Nat.add_0_r in Hl. rewrite Hl. simpl.
  unfold adjudicate. rewrite H1, H2, H3, H4, H5.
  destruct (Z.leb_spec (max_moves m) (Match.move_count s)); [|lia].
  now repeat split.
Qed.

End Facts.

(** *** The facts above on the miniature game *)

(** An engine that never names a move. *)
Definition silent_engine : Engine :=
  mkEngineEnv true (Returned UCI.demo_process) true (Returned tt)
    (fun _ _ _ _ => Returned (mkMove None [Some 7], 30)).

(** An engine whose process is gone when it is asked for a move. *)
Definition crashing_engine : Engine :=
  mkEngineEnv true (Returned UCI.demo_process) true (Returned tt)
    (fun _ _ _ _ => Raised "BrokenPipeError" "Broken pipe").

Definition two_move_match : Match :=
  mkMatch "Engines/white.exe" "Engines/black.exe" 60000 0 [] 2.

(** The miniature game after White's and after Black's first move. *)
Definition after_e2e4 : @State nat string :=
  mkState 1%nat ["e2e4"] 59750 60000 2500 0 1.

Definition after_e7e5 : @State nat string :=
  mkState 2%nat ["e2e4"; "e7e5"] 59750 59750 2500 2500 2.

Lemma one_pass (black : Engine) :
  passes minute_match book_engine black 1 (start_state minute_match) after_e2e4.
Proof.
  eapply passes_more; [apply passes_none | reflexivity | reflexivity].
Qed.

Lemma play_result_shape_witness :
  reason (Match.play no_pgn minute_match book_engine book_engine) <> "" /\
  (length (moves (Match.play no_pgn minute_match book_engine book_engine))
   <= 200)%nat.
Proof.
  destruct (play_result_shape no_pgn minute_match book_engine book_engine)
    as (_ & Hshape & _).
  destruct Hshape as (Hr & _ & Hl); [vm_compute; discriminate|].
  split; [exact Hr | exact Hl].
Defined.

(** Black does not answer its first [go]. *)
Lemma no_bestmove_loses_witness :
  let r := Match.play no_pgn minute_match book_engine silent_engine in
  winner r = Some "white" /\ reason r = "Engine failure" /\
  moves r = ["e2e4"] /\ final_time_black r = 60000.
Proof.
  destruct (no_bestmove_loses no_pgn minute_match book_engine silent_engine
              1 after_e2e4 (mkMove None [Some 7]) 30)
    as (Hw & Hr & Hm & _ & Hb & _).
  - reflexivity.
  - apply one_pass.
  - vm_compute. lia.
  - reflexivity.
  - reflexivity.
  - now left.
  - cbv zeta. split; [exact Hw|]. split; [exact Hr|]. split; [exact Hm|exact Hb].
Defined.

(** Black's process is gone at its first [go]. *)
Lemma crash_discards_game_witness :
  Match.play no_pgn minute_match book_engine crashing_engine
    = error_result "Broken pipe".
Proof.
  apply (crash_discards_game no_pgn minute_match book_engine crashing_engine
           1 after_e2e4 "BrokenPipeError" "Broken pipe").
  - reflexivity.
  - apply one_pass.
  - vm_compute. lia.
  - reflexivity.
  - reflexivity.
Defined.

(** A game limited to two moves. *)
Lemma max_moves_draw_witness :
  let r := Match.play no_pgn two_move_match book_engine book_engine in
  winner r = Some "draw" /\ reason r = "Maximum moves (2) reached" /\
  moves r = ["e2e4"; "e7e5"].
Proof.
  destruct (max_moves_draw no_pgn two_move_match book_engine book_engine
              after_e7e5) as (Hw & Hr & Hm & _); try reflexivity.
  - simpl. lia.
  - eapply passes_more;
      [eapply passes_more; [apply passes_none | reflexivity | reflexivity]
      | reflexivity | reflexivity].
  - cbv zeta. split; [exact Hw|]. split; [exact Hr|exact Hm].
Defined.

End MatchFacts.
